(** * SmartRoute: stop registry, order import and route orchestration

    A shallow embedding of the planner's logic (App.tsx, types.ts and
    services/geminiService.ts) and the properties of its handlers.

    Conventions of the embedding.
    - JS strings are byte strings holding the UTF-8 encoding of the text.
    - JS numbers are the rationals that doubles denote ([Q]); the code
      stores them, and where it computes with them (the fallback
      coordinate of an import) every operation rounds to the nearest
      double, as [round64] does.
    - An optional field [f?: T] is an [option T]; [x || d] and [if (x)] are
      written with the truthiness helpers below.
    - A promise that rejects and a [throw] are both [Throw e]; [await] of a
      fulfilled promise is [Ok v].  Handlers run to completion one at a
      time, so a handler is a function from the state at its start (and the
      replies of the services it awaits) to the state at its end.
    - What the outside world answers (the language model, the geocoder, the
      routing mirrors, [crypto.randomUUID], [Math.random], [confirm]) is an
      argument of the handler that asks for it. *)

From Stdlib Require Import String Ascii DecimalString QArith Lia.
From stdpp Require Import base list strings sorting.

Set Default Proof Using "Type".
Open Scope string_scope.
Open Scope list_scope.

(** ** Host-language helpers *)

(** Exceptions: every value thrown in these files is an [Error] with a
    [message]. *)
Inductive JsError := Error (message : string).

Definition message (e : JsError) : string := let 'Error m := e in m.

Inductive result (A : Type) :=
| Ok (a : A)
| Throw (e : JsError).
Arguments Ok {A} a.
Arguments Throw {A} e.

#[global] Instance result_ret : MRet result := λ A a, Ok a.

#[global] Instance result_bind : MBind result := λ A B k r,
  match r with
  | Ok a => k a
  | Throw e => Throw e
  end.

(** [try { body } catch (e) { handler(e) }] *)
Definition try_catch {A} (body : result A) (handler : JsError → A) : A :=
  match body with
  | Ok a => a
  | Throw e => handler e
  end.

(** [s || d] on an optional string: [undefined] and [''] are falsy. *)
Definition str_or (s : option string) (d : string) : string :=
  match s with
  | Some v => if String.eqb v "" then d else v
  | None => d
  end.

(** [if (b)] on an optional boolean. *)
Definition truthy (b : option bool) : bool :=
  match b with
  | Some true => true
  | _ => false
  end.

(** Template interpolation [`${n}`] of a non-negative integer. *)
Definition show_nat (n : nat) : string := NilZero.string_of_uint (Nat.to_uint n).

(** [String.prototype.trim]: strips the code points of WhiteSpace and
    LineTerminator from both ends.  [white_space] lists their UTF-8
    encodings. *)
Definition bytes (l : list nat) : list ascii := map ascii_of_nat l.

Definition white_space : list (list ascii) :=
  map bytes
    (app [ [9]; [10]; [11]; [12]; [13]; [32]; [194; 160]; [225; 154; 128] ]
      (app (map (λ k, [226; 128; 128 + k]) (seq 0 11))
           [ [226; 128; 168]; [226; 128; 169]; [226; 128; 175];
             [226; 129; 159]; [227; 128; 128]; [239; 187; 191] ])).

Fixpoint strip_prefix (p s : list ascii) : option (list ascii) :=
  match p, s with
  | [], _ => Some s
  | a :: p', b :: s' => if Ascii.eqb a b then strip_prefix p' s' else None
  | _ :: _, [] => None
  end.

Fixpoint strip_any (ps : list (list ascii)) (s : list ascii) : option (list ascii) :=
  match ps with
  | [] => None
  | p :: ps' =>
      match strip_prefix p s with
      | Some s' => Some s'
      | None => strip_any ps' s
      end
  end.

Fixpoint trim_front (fuel : nat) (ws : list (list ascii)) (s : list ascii) : list ascii :=
  match fuel with
  | O => s
  | S fuel' =>
      match strip_any ws s with
      | Some s' => trim_front fuel' ws s'
      | None => s
      end
  end.

Definition js_trim (s : string) : string :=
  let l := list_ascii_of_string s in
  let l1 := trim_front (length l) white_space l in
  let r := trim_front (length l1) (map (@rev ascii) white_space) (rev l1) in
  string_of_list_ascii (rev r).

(** IEEE 754 binary64 arithmetic.  [round64 x] is the double nearest to
    the rational [x], ties to the even mantissa, with the 53-bit mantissa
    of the normal range and the fixed unit of the subnormal range (numbers
    beyond the largest double do not occur here).  A decimal literal, a
    sum and a product of doubles are each rounded once. *)
Definition pow2 (e : Z) : Q :=
  if (0 <=? e)%Z then inject_Z (2 ^ e) else 1 # Z.to_pos (2 ^ (- e)).

(** The exponent [e] with [2^e <= x < 2^(e+1)], for [x > 0]. *)
Definition floorLog2 (x : Q) : Z :=
  let e0 := (Z.log2 (Qnum x) - Z.log2 (Zpos (Qden x)))%Z in
  if Qle_bool (pow2 e0) x then e0 else (e0 - 1)%Z.

Definition roundPositive (x : Q) : Q :=
  let e := Z.max (floorLog2 x) (-1022) in
  let q := (e - 52)%Z in
  let s := (x * pow2 (- q))%Q in
  let k := (Qnum s / Zpos (Qden s))%Z in
  let r := (Qnum s mod Zpos (Qden s))%Z in
  let k' := match (2 * r ?= Zpos (Qden s))%Z with
            | Lt => k
            | Gt => (k + 1)%Z
            | Eq => if Z.even k then k else (k + 1)%Z
            end in
  Qred (inject_Z k' * pow2 q).

Definition round64 (x : Q) : Q :=
  match Qnum x with
  | Z0 => 0
  | Zpos _ => roundPositive x
  | Zneg _ => - roundPositive (- x)
  end.

(** [a + b] and [a * b] on doubles. *)
Definition float_add (a b : Q) : Q := round64 (a + b).
Definition float_mul (a b : Q) : Q := round64 (a * b).

(** ** types.ts *)

Record Coordinates := mkCoordinates { lat : Q; lng : Q }.

Inductive DeliveryStatus := pending | delivered | failed.

Record DeliveryLocation := mkLocation {
  id : string;
  name : string;
  coordinates : Coordinates;
  address : option string;
  isDepot : option bool;
  customerName : option string;
  phoneNumber : option string;
  zone : option string;
  status : option DeliveryStatus
}.

Record OptimizedRouteStats := mkStats {
  totalDistanceKm : Q;
  totalTimeMinutes : Q;
  fuelCostTHB : Q;
  tollCostTHB : Q;
  totalCostTHB : Q;
  advice : string;
  stats_vehicleType : option string
}.

Record RouteSegment := mkSegment {
  fromId : string;
  toId : string;
  distanceKm : Q;
  timeMinutes : Q
}.

Record Maneuver := mkManeuver {
  maneuver_type : string;
  modifier : option string
}.

Record NavigationStep := mkStep {
  instruction : string;
  distanceMeters : Q;
  durationSeconds : Q;
  maneuver : Maneuver
}.

(** [optimizedOrder] is declared [string[]], but the value comes from a
    cast of parsed JSON and the code tests it before every use
    ([result.optimizedOrder && ...], [optimizedRoute?.optimizedOrder || []]):
    it can be missing at run time. *)
Record RouteOptimizationResult := mkRoute {
  optimizedOrder : option (list string);
  segments : list RouteSegment;
  stats : OptimizedRouteStats;
  pathPolyline : option (list Coordinates);
  navigationInstructions : option (list NavigationStep)
}.

Inductive VehicleType := PICKUP_CLOSED | PICKUP_OPEN | TRUCK_6W.

(** The string value of each enum member. *)
Definition VehicleType_value (v : VehicleType) : string :=
  match v with
  | PICKUP_CLOSED => "กระบะตู้ทึบ"
  | PICKUP_OPEN => "กระบะคอก"
  | TRUCK_6W => "รถบรรทุก 6 ล้อ"
  end.

(** ** services/geminiService.ts *)

(** [JSON.parse(text) as T].  The parser is the host's; [T] is the parsed
    value seen through the property accesses the code makes on it. *)
Class JsonParse (T : Type) := JSON_parse : string → result T.

(** What [ai.models.generateContent] settles to: a rejection, or a response
    whose [text] may be missing. *)
Inductive GenerateContentReply :=
| GenRejected (e : JsError)
| GenResponse (text : option string).

Definition await_generateContent (r : GenerateContentReply) : result (option string) :=
  match r with
  | GenRejected e => Throw e
  | GenResponse text => Ok text
  end.

Definition OSRM_SERVERS : list string :=
  [ "https://router.project-osrm.org/route/v1/driving";
    "https://routing.openstreetmap.de/routed-car/route/v1/driving" ].

Definition translateManeuver (type : string) (modifier : option string)
    (name : option string) : string :=
  let roadName :=
    match name with
    | Some n => if String.eqb n "" then "" else "เข้าสู่ " +:+ n
    | None => ""
    end in
  if String.eqb type "depart" then "เริ่มต้นเดินทาง " +:+ roadName
  else if String.eqb type "arrive" then "ถึงจุดหมาย"
  else if String.eqb type "roundabout" then
    "ที่วงเวียน ใช้ทางออก " +:+ str_or modifier "" +:+ " " +:+ roadName
  else
    let case (m : string) :=
      match modifier with
      | Some v => String.eqb v m
      | None => false
      end in
    if case "left" then "เลี้ยวซ้าย " +:+ roadName
    else if case "right" then "เลี้ยวขวา " +:+ roadName
    else if case "slight left" then "เบี่ยงซ้ายเล็กน้อย " +:+ roadName
    else if case "slight right" then "เบี่ยงขวาเล็กน้อย " +:+ roadName
    else if case "sharp left" then "เลี้ยวซ้ายหักศอก " +:+ roadName
    else if case "sharp right" then "เลี้ยวขวาหักศอก " +:+ roadName
    else if case "uturn" then "กลับรถ"
    else if case "straight" then "ตรงไป " +:+ roadName
    else js_trim (type +:+ " " +:+ roadName).

(** The routing service's JSON, as far as [fetchRouteData] reads it.  The
    fields the code tests before use ([data.routes], [route.legs],
    [leg.steps], [s.name]) are optional; [routes] missing and [routes]
    empty both make [data.routes && data.routes[0]] falsy and are the
    empty list. *)
Record OsrmStep := mkOsrmStep {
  step_maneuver : Maneuver;
  step_name : option string;
  step_distance : Q;
  step_duration : Q
}.

Record OsrmLeg := mkOsrmLeg { leg_steps : option (list OsrmStep) }.

Record OsrmRoute := mkOsrmRoute {
  route_geometry : list (Q * Q);     (* geometry.coordinates: [lng, lat] pairs *)
  route_legs : option (list OsrmLeg)
}.

Record OsrmData := mkOsrmData {
  data_code : string;
  data_routes : list OsrmRoute
}.

(** What one mirror answers.  [body = None] stands for every way the inner
    [try] block throws after the status test: [response.json()] rejecting,
    or a body without the fields the code dereferences. *)
Inductive OsrmReply :=
| FetchRejected
| HttpResponse (ok : bool) (body : option OsrmData).

Record RouteData := mkRouteData {
  geometry : list Coordinates;
  steps : list NavigationStep
}.

Definition legSteps (ss : list OsrmStep) : list NavigationStep :=
  map (λ s, {| instruction :=
                 translateManeuver (maneuver_type (step_maneuver s))
                                   (modifier (step_maneuver s)) (step_name s);
               distanceMeters := step_distance s;
               durationSeconds := step_duration s;
               maneuver := step_maneuver s |}) ss.

(** The step pushed after a leg that is not the last one. *)
Definition arrivalStep (legIndex : nat) : NavigationStep :=
  {| instruction := "ถึงจุดส่งสินค้าที่ " +:+ show_nat (legIndex + 1);
     distanceMeters := 0;
     durationSeconds := 0;
     maneuver := {| maneuver_type := "arrive"; modifier := None |} |}.

(** The body of [route.legs.forEach((leg, legIndex) => ...)], with
    [legsLength = route.legs.length]. *)
Definition forEachLeg_body (legsLength : nat) (allSteps : list NavigationStep)
    (legIndex : nat) (leg : OsrmLeg) : list NavigationStep :=
  match leg_steps leg with
  | Some ss =>
      let allSteps := allSteps ++ legSteps ss in
      if (Z.of_nat legIndex <? Z.of_nat legsLength - 1)%Z
      then allSteps ++ [arrivalStep legIndex]
      else allSteps
  | None => allSteps
  end.

Fixpoint forEachLeg (legsLength legIndex : nat) (legs : list OsrmLeg)
    (allSteps : list NavigationStep) : list NavigationStep :=
  match legs with
  | [] => allSteps
  | leg :: rest =>
      forEachLeg legsLength (S legIndex) rest
        (forEachLeg_body legsLength allSteps legIndex leg)
  end.

Definition routeSteps (route : OsrmRoute) : list NavigationStep :=
  match route_legs route with
  | Some legs => forEachLeg (length legs) 0 legs []
  | None => []
  end.

Definition routeGeometry (route : OsrmRoute) : list Coordinates :=
  map (λ c, {| lat := c.2; lng := c.1 |}) (route_geometry route).

(** The tests a mirror's answer passes before its first route is used:
    the fetch settles, [response.ok], the body parses, and
    [data.code === 'Ok' && data.routes && data.routes[0]]. *)
Definition usableRoute (reply : OsrmReply) : option OsrmRoute :=
  match reply with
  | HttpResponse true (Some data) =>
      if String.eqb (data_code data) "Ok" then head (data_routes data) else None
  | _ => None
  end.

(** The loop [for (const baseUrl of OSRM_SERVERS)].  [fetch baseUrl coords]
    is the mirror's answer to the request for the ordered coordinates
    (the URL is [baseUrl] followed by the coordinates and fixed options). *)
Fixpoint tryServers (fetch : string → list Coordinates → OsrmReply)
    (coords : list Coordinates) (servers : list string) : RouteData :=
  match servers with
  | [] => {| geometry := []; steps := [] |}
  | baseUrl :: rest =>
      match usableRoute (fetch baseUrl coords) with
      | Some route =>
          {| geometry := routeGeometry route; steps := routeSteps route |}
      | None => tryServers fetch coords rest
      end
  end.

Definition fetchRouteData (fetch : string → list Coordinates → OsrmReply)
    (orderedLocations : list DeliveryLocation) : RouteData :=
  tryServers fetch (map coordinates orderedLocations) OSRM_SERVERS.

(** The model's answer after [JSON.parse], limited to the three properties
    of the response schema; each may be missing ([response.text || "{}"]
    parses to an object with none of them). *)
Record GeminiRouteJson := mkGeminiRouteJson {
  json_optimizedOrder : option (list string);
  json_segments : option (list RouteSegment);
  json_stats : option OptimizedRouteStats
}.

(** [result.stats.vehicleType = ...] when [result.stats] is undefined.  The
    text is the engine's. *)
Definition TYPE_ERROR_STATS : JsError :=
  Error "Cannot set properties of undefined (setting 'vehicleType')".

Definition TOO_FEW_STOPS : JsError :=
  Error "ต้องมีจุดส่งสินค้าอย่างน้อย 2 จุดเพื่อคำนวณเส้นทาง".

Definition includes (x : string) (l : list string) : bool :=
  existsb (String.eqb x) l.

(** Lines 234-238: the depot id is put in front of a non-empty order that
    does not contain it; every other order is left as it is. *)
Definition normalizeOrder (depotId : string) (order : option (list string))
    : option (list string) :=
  match order with
  | Some (first :: rest) =>
      if negb (String.eqb first depotId) then
        if negb (includes depotId (first :: rest))
        then Some (depotId :: first :: rest)       (* unshift *)
        else Some (first :: rest)
      else Some (first :: rest)
  | _ => order
  end.

Definition findById (locations : list DeliveryLocation) (i : string)
    : option DeliveryLocation :=
  List.find (λ l, String.eqb (id l) i) locations.

(** [locations.find(l => l.isDepot) || locations[0]], with [first] the
    value of [locations[0]]. *)
Definition depotOf (first : DeliveryLocation) (locations : list DeliveryLocation)
    : DeliveryLocation :=
  default first (List.find (λ l, truthy (isDepot l)) locations).

(** [stats.vehicleType = vehicleType] *)
Definition stamped (v : VehicleType) (st : OptimizedRouteStats)
    : OptimizedRouteStats :=
  mkStats (totalDistanceKm st) (totalTimeMinutes st) (fuelCostTHB st)
          (tollCostTHB st) (totalCostTHB st) (advice st)
          (Some (VehicleType_value v)).

Section Service.
Context {route_parser : JsonParse GeminiRouteJson}.

(** The prompt only shapes the request; the reply is [generateContent]. *)
Definition optimizeRouteWithGemini (locations : list DeliveryLocation)
    (vehicleType : VehicleType) (generateContent : GenerateContentReply)
    (fetch : string → list Coordinates → OsrmReply)
    : result RouteOptimizationResult :=
  match locations with
  | [] | [_] => Throw TOO_FEW_STOPS
  | first :: _ =>
      let depot := depotOf first locations in
      text ← await_generateContent generateContent;
      let resultText := str_or text "{}" in
      result ← JSON_parse resultText;
      stats ← match json_stats result with
              | Some st => Ok (stamped vehicleType st)
              | None => Throw TYPE_ERROR_STATS
              end;
      let order := normalizeOrder (id depot) (json_optimizedOrder result) in
      let segments := default [] (json_segments result) in
      let routed :=
        match order with
        | Some ((_ :: _) as ids) =>
            let orderedLocations := omap (findById locations) ids in
            if (1 <? length orderedLocations)%nat
            then Some (fetchRouteData fetch orderedLocations)
            else None
        | _ => None
        end in
      Ok {| optimizedOrder := order;
            segments := segments;
            stats := stats;
            pathPolyline := geometry <$> routed;
            navigationInstructions := steps <$> routed |}
  end.
End Service.

(** ** App.tsx *)

Definition STORAGE_KEY : string := "smartroute_thai_data_v2".

Definition DEPOT_NAME : string := "คลังสินค้า (Start)".
Definition STOP_PREFIX : string := "จุดส่งสินค้า".
Definition LIMIT_MESSAGE : string :=
  "เพิ่มจุดส่งได้สูงสุด 30 จุด เพื่อประสิทธิภาพสูงสุด".
Definition UNRESOLVED_SUFFIX : string := " (ไม่พบพิกัด)".

Record AppState := mkState {
  locations : list DeliveryLocation;
  optimizedRoute : option RouteOptimizationResult;
  vehicleType : VehicleType;
  isCalculating : bool;
  importingStatus : option string;
  selectedId : option string;
  error : option string
}.

(** The state setters of [useState]. *)
Definition setLocations (v : list DeliveryLocation) (st : AppState) : AppState :=
  mkState v (optimizedRoute st) (vehicleType st) (isCalculating st)
          (importingStatus st) (selectedId st) (error st).
Definition setOptimizedRoute (v : option RouteOptimizationResult) (st : AppState) : AppState :=
  mkState (locations st) v (vehicleType st) (isCalculating st)
          (importingStatus st) (selectedId st) (error st).
Definition setVehicleType (v : VehicleType) (st : AppState) : AppState :=
  mkState (locations st) (optimizedRoute st) v (isCalculating st)
          (importingStatus st) (selectedId st) (error st).
Definition setIsCalculating (v : bool) (st : AppState) : AppState :=
  mkState (locations st) (optimizedRoute st) (vehicleType st) v
          (importingStatus st) (selectedId st) (error st).
Definition setImportingStatus (v : option string) (st : AppState) : AppState :=
  mkState (locations st) (optimizedRoute st) (vehicleType st) (isCalculating st)
          v (selectedId st) (error st).
Definition setSelectedId (v : option string) (st : AppState) : AppState :=
  mkState (locations st) (optimizedRoute st) (vehicleType st) (isCalculating st)
          (importingStatus st) v (error st).
Definition setError (v : option string) (st : AppState) : AppState :=
  mkState (locations st) (optimizedRoute st) (vehicleType st) (isCalculating st)
          (importingStatus st) (selectedId st) v.

(** [generateId()] is an argument [newId] of the handler that calls it. *)
Definition handleMapClick (coords : Coordinates) (newId : string)
    (st : AppState) : AppState :=
  if (30 <=? length (locations st))%nat then setError (Some LIMIT_MESSAGE) st
  else
    let isFirst := (length (locations st) =? 0)%nat in
    let newLocation :=
      {| id := newId;
         name := if isFirst then DEPOT_NAME
                 else STOP_PREFIX +:+ " " +:+ show_nat (length (locations st));
         coordinates := coords;
         address := None;
         isDepot := Some isFirst;
         customerName := None;
         phoneNumber := None;
         zone := Some (if isFirst then "HQ" else "ทั่วไป");
         status := None |} in
    setError None
      (setOptimizedRoute None
        (setSelectedId (Some newId)
          (setLocations (locations st ++ [newLocation]) st))).

Definition withName (n : string) (loc : DeliveryLocation) : DeliveryLocation :=
  mkLocation (id loc) n (coordinates loc) (address loc) (isDepot loc)
             (customerName loc) (phoneNumber loc) (zone loc) (status loc).

Definition withIsDepot (d : option bool) (loc : DeliveryLocation) : DeliveryLocation :=
  mkLocation (id loc) (name loc) (coordinates loc) (address loc) d
             (customerName loc) (phoneNumber loc) (zone loc) (status loc).

(** Lines 89-92: when the removed id is the id of [locations[0]] and
    something is left, the first stop left is made the depot.  The source
    writes the two fields into the object itself, which the array of the
    state being replaced shares; only the new array is kept, so the write
    is modelled on the new list. *)
Definition promoteFirst (rid : string) (locations newLocations : list DeliveryLocation)
    : list DeliveryLocation :=
  match newLocations, locations with
  | n0 :: rest, l0 :: _ =>
      if String.eqb (id l0) rid
      then withName DEPOT_NAME (withIsDepot (Some true) n0) :: rest
      else newLocations
  | _, _ => newLocations
  end.

(** The callback of [newLocations.map((loc, idx) => ...)]. *)
Definition renumber (idx : nat) (loc : DeliveryLocation) : DeliveryLocation :=
  if truthy (isDepot loc) then loc
  else if String.prefix STOP_PREFIX (name loc)
       then withName (STOP_PREFIX +:+ " " +:+ show_nat idx) loc
       else loc.

(** The new value of [locations] computed by [handleRemoveLocation]. *)
Definition removeLocation (rid : string) (locations : list DeliveryLocation)
    : list DeliveryLocation :=
  let newLocations := filter (λ l, id l ≠ rid) locations in
  imap renumber (promoteFirst rid locations newLocations).

Definition handleRemoveLocation (rid : string) (st : AppState) : AppState :=
  let st1 := setOptimizedRoute None (setLocations (removeLocation rid (locations st)) st) in
  match selectedId st with
  | Some sel => if String.eqb sel rid then setSelectedId None st1 else st1
  | None => st1
  end.

(** [window.confirm] answers [confirmed].  The stored record, which the
    handler also removes, is not part of [AppState]. *)
Definition handleReset (confirmed : bool) (st : AppState) : AppState :=
  if confirmed
  then setSelectedId None (setError None (setOptimizedRoute None (setLocations [] st)))
  else st.

(** An extracted order, as the import reads it. *)
Record ParsedOrder := mkOrder {
  order_customerName : option string;
  order_phoneNumber : option string;
  order_address : option string;
  order_zone : option string
}.

(** What the geocoder answers to one request: the [fetch] or
    [response.json()] rejects, or a list of hits is returned (empty also
    stands for a falsy body); a hit carries [parseFloat] of its [lat] and
    [lon]. *)
Inductive GeocodeReply :=
| GeocodeRejected
| GeocodeData (hits : list (Q * Q)).

(** The decimal literals of line 161; the code computes with the doubles
    nearest to them. *)
Definition FALLBACK_LAT : Q := 13.7563.
Definition FALLBACK_LNG : Q := 100.5018.
Definition JITTER : Q := 0.01.

(** The environment of one import: the geocoder's answer to the request
    made for order [i], the id generated for it, and the two doubles
    [Math.random()] returns for it. *)
Record ImportEnv := mkImportEnv {
  geocode : nat → GeocodeReply;
  generateId : nat → string;
  random : nat → Q * Q
}.

Definition resolvedStop (env : ImportEnv) (isDepot : bool) (i : nat)
    (order : ParsedOrder) (hit : Q * Q) : DeliveryLocation :=
  {| id := generateId env i;
     name := str_or (order_customerName order) ("จุดส่ง " +:+ show_nat (i + 1));
     coordinates := {| lat := hit.1; lng := hit.2 |};
     address := order_address order;
     isDepot := Some isDepot;
     customerName := order_customerName order;
     phoneNumber := order_phoneNumber order;
     zone := order_zone order;
     status := None |}.

Definition unresolvedStop (env : ImportEnv) (isDepot : bool) (i : nat)
    (order : ParsedOrder) : DeliveryLocation :=
  {| id := generateId env i;
     name := str_or (order_customerName order) "Unknown" +:+ UNRESOLVED_SUFFIX;
     coordinates :=
       {| lat := float_add (round64 FALLBACK_LAT)
                           (float_mul (random env i).1 (round64 JITTER));
          lng := float_add (round64 FALLBACK_LNG)
                           (float_mul (random env i).2 (round64 JITTER)) |};
     address := order_address order;
     isDepot := Some isDepot;
     customerName := order_customerName order;
     phoneNumber := order_phoneNumber order;
     zone := Some "Unresolved";
     status := None |}.

(** The loop of lines 138-174 from index [i] on; [newLocations] is the
    array built so far. *)
Fixpoint importLoop (env : ImportEnv) (isFirst : bool) (i : nat)
    (orders : list ParsedOrder) (newLocations : list DeliveryLocation)
    : list DeliveryLocation :=
  match orders with
  | [] => newLocations
  | order :: rest =>
      let isDepot := isFirst && (i =? 0)%nat in
      let pushed :=
        match geocode env i with
        | GeocodeData (hit :: _) =>
            newLocations ++ [resolvedStop env isDepot i order hit]
        | GeocodeData [] =>
            newLocations ++ [unresolvedStop env isDepot i order]
        | GeocodeRejected => newLocations       (* caught, console.warn *)
        end in
      importLoop env isFirst (S i) rest pushed
  end.

Definition NO_ORDERS : JsError := Error "ไม่พบข้อมูลออเดอร์ในข้อความ".
Definition CALCULATE_FAILED : string := "ไม่สามารถคำนวณเส้นทางได้: ".
Definition AI_ERROR : string := "เกิดข้อผิดพลาดจากระบบ AI".
Definition IMPORT_FAILED : string := "การนำเข้าข้อมูลล้มเหลว: ".

(** The persisted record after [JSON.parse]: [null], on which a property
    access throws, or any other value, with its [locations] and
    [optimizedRoute] properties when they are truthy. *)
Inductive SavedJson :=
| SavedNull
| SavedValue (saved_locations : option (list DeliveryLocation))
             (saved_route : option RouteOptimizationResult).

Definition TYPE_ERROR_NULL : JsError :=
  Error "Cannot read properties of null".

Inductive Action :=
| MapClick (coords : Coordinates) (newId : string)
| RemoveLocation (rid : string)
| CalculateRoute (generateContent : GenerateContentReply)
                 (fetch : string → list Coordinates → OsrmReply)
| ImportOrders (text : string) (generateContent : GenerateContentReply)
               (env : ImportEnv)
| ConfirmReset (confirmed : bool)
| LocationSelect (sel : option string)
| VehicleChange (v : VehicleType)
| DismissError.

Section App.
Context {route_parser : JsonParse GeminiRouteJson}.
Context {orders_parser : JsonParse (list ParsedOrder)}.
Context {saved_parser : JsonParse SavedJson}.

Definition parseOrdersWithGemini (rawText : string)
    (generateContent : GenerateContentReply) : result (list ParsedOrder) :=
  text ← await_generateContent generateContent;
  JSON_parse (str_or text "[]").

Definition handleCalculateRoute (generateContent : GenerateContentReply)
    (fetch : string → list Coordinates → OsrmReply) (st : AppState) : AppState :=
  if (length (locations st) <? 2)%nat then st
  else
    let st1 := setError None (setIsCalculating true st) in
    let st2 :=
      try_catch
        (result ← optimizeRouteWithGemini (locations st) (vehicleType st)
                    generateContent fetch;
         Ok (setOptimizedRoute (Some result) st1))
        (λ err, setError
                  (Some (CALCULATE_FAILED +:+ str_or (Some (message err)) AI_ERROR))
                  st1) in
    setIsCalculating false st2.

Definition handleImportOrders (text : string)
    (generateContent : GenerateContentReply) (env : ImportEnv)
    (st : AppState) : AppState :=
  let st1 := setImportingStatus (Some "กำลังวิเคราะห์ข้อมูลด้วย AI...") st in
  try_catch
    (parsedOrders ← parseOrdersWithGemini text generateContent;
     if (length parsedOrders =? 0)%nat then Throw NO_ORDERS
     else
       let st2 :=
         setImportingStatus
           (Some ("กำลังค้นหาพิกัด " +:+ show_nat (length parsedOrders) +:+ " รายการ..."))
           st1 in
       let isFirst := (length (locations st) =? 0)%nat in
       let newLocations := importLoop env isFirst 0 parsedOrders [] in
       Ok (setImportingStatus None
             (setLocations (locations st2 ++ newLocations) st2)))
    (λ err, setImportingStatus None
              (setError (Some (IMPORT_FAILED +:+ message err)) st1)).

(** The two [useState] initializers.  [getItem] is what
    [localStorage.getItem(STORAGE_KEY)] does: throw, or return the stored
    string if there is one.  The inner [option] is [Some v] for
    [return v] inside the [if] and [None] for falling out of it. *)
Definition initLocations (getItem : result (option string))
    : list DeliveryLocation :=
  default []
    (try_catch
       (savedData ← getItem;
        match savedData with
        | Some s =>
            if String.eqb s "" then Ok None
            else
              parsed ← JSON_parse s;
              match parsed with
              | SavedNull => Throw TYPE_ERROR_NULL
              | SavedValue locs _ => Ok (Some (default [] locs))
              end
        | None => Ok None
        end)
       (λ _, None)).

Definition initOptimizedRoute (getItem : result (option string))
    : option RouteOptimizationResult :=
  default None
    (try_catch
       (savedData ← getItem;
        match savedData with
        | Some s =>
            if String.eqb s "" then Ok None
            else
              parsed ← JSON_parse s;
              match parsed with
              | SavedNull => Throw TYPE_ERROR_NULL
              | SavedValue _ route => Ok (Some route)
              end
        | None => Ok None
        end)
       (λ _, None)).

(** The state of the first render. *)
Definition initialState (getItem : result (option string)) : AppState :=
  {| locations := initLocations getItem;
     optimizedRoute := initOptimizedRoute getItem;
     vehicleType := PICKUP_CLOSED;
     isCalculating := false;
     importingStatus := None;
     selectedId := None;
     error := None |}.

Definition step (a : Action) (st : AppState) : AppState :=
  match a with
  | MapClick coords newId => handleMapClick coords newId st
  | RemoveLocation rid => handleRemoveLocation rid st
  | CalculateRoute reply fetch => handleCalculateRoute reply fetch st
  | ImportOrders text reply env => handleImportOrders text reply env st
  | ConfirmReset confirmed => handleReset confirmed st
  | LocationSelect sel => setSelectedId sel st
  | VehicleChange v => setVehicleType v st
  | DismissError => setError None st
  end.

(** The states the handlers lead to from a start without saved data. *)
Inductive reachable : AppState → Prop :=
| reachable_init : reachable (initialState (Ok None))
| reachable_step a st : reachable st → reachable (step a st).
End App.

(** ** components/MapView.tsx and components/Sidebar.tsx *)

(** The props [App] passes to both views:
    [optimizedRoute?.optimizedOrder || []] and [optimizedRoute?.pathPolyline]. *)
Definition props_optimizedOrder (st : AppState) : list string :=
  match optimizedRoute st with
  | Some r => default [] (optimizedOrder r)
  | None => []
  end.

Definition props_routePolyline (st : AppState) : option (list Coordinates) :=
  match optimizedRoute st with
  | Some r => pathPolyline r
  | None => None
  end.

(** [Array.prototype.indexOf] and [findIndex]: the first position, or -1. *)
Definition indexOf (x : string) (l : list string) : Z :=
  match list_find (λ y, y = x) l with
  | Some (i, _) => Z.of_nat i
  | None => -1
  end.

Definition findIndexById (i : string) (locations : list DeliveryLocation) : Z :=
  match list_find (λ l, id l = i) locations with
  | Some (k, _) => Z.of_nat k
  | None => -1
  end.

(** MapView: the straight path through the stops of the order, ids that
    are not ids of stops being dropped. *)
Definition straightLinePositions (locations : list DeliveryLocation)
    (optimizedOrder : list string) : list (Q * Q) :=
  (λ l, (lat (coordinates l), lng (coordinates l)))
    <$> omap (findById locations) optimizedOrder.

Definition displayPositions (locations : list DeliveryLocation)
    (optimizedOrder : list string) (routePolyline : option (list Coordinates))
    : list (Q * Q) :=
  match routePolyline with
  | Some ((_ :: _) as poly) => (λ c, (lat c, lng c)) <$> poly
  | _ => straightLinePositions locations optimizedOrder
  end.

(** MapView: the number on the marker of [loc]. *)
Definition markerLabelIndex (locations : list DeliveryLocation)
    (optimizedOrder : list string) (loc : DeliveryLocation) : Z :=
  let displayIndex :=
    if (0 <? length optimizedOrder)%nat
    then indexOf (id loc) optimizedOrder
    else findIndexById (id loc) locations in
  if (displayIndex =? -1)%Z then Z.of_nat (length locations) else displayIndex.

(** Sidebar: the stops listed, in the optimized order when there is one. *)
Definition displayedLocations (locations : list DeliveryLocation)
    (optimizedOrder : list string) : list DeliveryLocation :=
  if (0 <? length optimizedOrder)%nat
  then omap (findById locations) optimizedOrder
  else locations.

(** Sidebar: the number in the list entry of [loc]. *)
Definition listLabelIndex (locations : list DeliveryLocation)
    (optimizedOrder : list string) (loc : DeliveryLocation) : Z :=
  if (0 <? length optimizedOrder)%nat
  then indexOf (id loc) optimizedOrder
  else findIndexById (id loc) locations.

(** Sidebar: the leg shown under the entry of [loc]: the first segment
    from [loc] to the id that follows it in the order. *)
Definition segmentInfo (optimizedOrder : list string)
    (segments : option (list RouteSegment)) (loc : DeliveryLocation)
    : option RouteSegment :=
  if (0 <? length optimizedOrder)%nat then
    let labelIndex := indexOf (id loc) optimizedOrder in
    let nextId :=
      if (labelIndex + 1 <? 0)%Z then None
      else optimizedOrder !! Z.to_nat (labelIndex + 1) in
    match nextId, segments with
    | Some next, Some segs =>
        if String.eqb next "" then None
        else List.find (λ s, String.eqb (fromId s) (id loc)
                             && String.eqb (toId s) next) segs
    | _, _ => None
    end
  else None.

(** The import dialog of the sidebar: its text, and whether it is open. *)
Record ImportDialog := mkImportDialog {
  importText : string;
  showImportModal : bool
}.

(** [handleImportSubmit]: the new dialog state, and the text handed to
    [onImportOrders] if any. *)
Definition handleImportSubmit (d : ImportDialog) : ImportDialog * option string :=
  if String.eqb (js_trim (importText d)) "" then (d, None)
  else (mkImportDialog "" false, Some (importText d)).

(** *** Plain objects used as maps

    A plain object with values of type [A] is the list of its own
    properties in the order of their creation.  Reading [o[key]] also
    finds what [Object.prototype] defines; enumerating ([Object.entries],
    spread) gives the keys that are array indices first, in ascending
    order, then the others in the order of their creation. *)
Abbreviation JsObject A := (list (string * A)).

(** The property names of [Object.prototype]; each of them reads as a
    truthy value that is not an array. *)
Definition OBJECT_PROTOTYPE : list string :=
  [ "constructor"; "hasOwnProperty"; "isPrototypeOf"; "propertyIsEnumerable";
    "toLocaleString"; "toString"; "valueOf"; "__proto__";
    "__defineGetter__"; "__defineSetter__"; "__lookupGetter__";
    "__lookupSetter__" ].

Definition inherited (key : string) : bool :=
  existsb (String.eqb key) OBJECT_PROTOTYPE.

Fixpoint getOwn {A} (key : string) (o : JsObject A) : option A :=
  match o with
  | [] => None
  | (k, v) :: rest => if String.eqb k key then Some v else getOwn key rest
  end.

(** [o[key] = v]: an own property keeps its place, a new one comes last. *)
Fixpoint setOwn {A} (key : string) (v : A) (o : JsObject A) : JsObject A :=
  match o with
  | [] => [(key, v)]
  | (k, x) :: rest =>
      if String.eqb k key then (k, v) :: rest else (k, x) :: setOwn key v rest
  end.

(** [delete o[key]] *)
Definition deleteOwn {A} (key : string) (o : JsObject A) : JsObject A :=
  filter (λ kv, kv.1 ≠ key) o.

(** The value of [key] as an array index: the canonical decimal form of an
    integer from 0 to 2^32 - 2. *)
Definition arrayIndex (key : string) : option N :=
  match NilZero.uint_of_string key with
  | Some u =>
      let n := N.of_uint u in
      if String.eqb (NilZero.string_of_uint (N.to_uint n)) key
         && (n <=? 4294967294)%N
      then Some n
      else None
  | None => None
  end.

Definition isIndexKey {A} (kv : string * A) : bool :=
  match arrayIndex kv.1 with
  | Some _ => true
  | None => false
  end.

Definition indexLe {A} (a b : string * A) : Prop :=
  (default 0 (arrayIndex a.1) ≤ default 0 (arrayIndex b.1))%N.

#[global] Instance indexLe_dec {A} (a b : string * A) : Decision (indexLe a b) :=
  decide (default 0 (arrayIndex a.1) ≤ default 0 (arrayIndex b.1))%N.

(** [Object.entries(o)] *)
Definition ownEntries {A} (o : JsObject A) : list (string * A) :=
  merge_sort indexLe (filter (λ kv, isIndexKey kv = true) o)
  ++ filter (λ kv, isIndexKey kv = false) o.

(** [{...a, ...b}] *)
Definition spread {A} (a b : JsObject A) : JsObject A :=
  foldl (λ acc kv, setOwn kv.1 kv.2 acc) [] (ownEntries a ++ ownEntries b).

(** *** Sidebar: the groups of the list *)

Definition DEPOT_ZONE : string := "คลังสินค้า".
Definition GENERAL_ZONE : string := "ทั่วไป".
Definition ROUTE_GROUP : string := "เส้นทางจัดส่ง".

(** [loc.zone || (loc.isDepot ? 'คลังสินค้า' : 'ทั่วไป')] *)
Definition zoneOf (loc : DeliveryLocation) : string :=
  str_or (zone loc) (if truthy (isDepot loc) then DEPOT_ZONE else GENERAL_ZONE).

(** [groups[zone].push(loc)] where [groups[zone]] is not an array. *)
Definition TYPE_ERROR_PUSH : JsError :=
  Error "groups[zone].push is not a function".

(** The callback of [displayedLocations.forEach(loc => ...)]. *)
Definition groupInto (groups : JsObject (list DeliveryLocation))
    (loc : DeliveryLocation) : result (JsObject (list DeliveryLocation)) :=
  let zone := zoneOf loc in
  match getOwn zone groups with
  | Some ls => Ok (setOwn zone (ls ++ [loc]) groups)
  | None =>
      if inherited zone then Throw TYPE_ERROR_PUSH
      else Ok (setOwn zone [loc] groups)
  end.

Fixpoint forEachGroup (locs : list DeliveryLocation)
    (groups : JsObject (list DeliveryLocation))
    : result (JsObject (list DeliveryLocation)) :=
  match locs with
  | [] => Ok groups
  | loc :: rest => groups' ← groupInto groups loc; forEachGroup rest groups'
  end.

Definition groupedLocations (locations : list DeliveryLocation)
    (optimizedOrder : list string) : result (JsObject (list DeliveryLocation)) :=
  let displayed := displayedLocations locations optimizedOrder in
  if (0 <? length optimizedOrder)%nat then Ok [(ROUTE_GROUP, displayed)]
  else
    groups ← forEachGroup displayed [];
    match getOwn DEPOT_ZONE groups with
    | Some depotGroup =>
        Ok (spread [(DEPOT_ZONE, depotGroup)] (deleteOwn DEPOT_ZONE groups))
    | None => Ok (spread [] groups)
    end.

(** The groups in the order the list shows them:
    [Object.entries(groupedLocations)]. *)
Definition shownGroups (locations : list DeliveryLocation)
    (optimizedOrder : list string)
    : result (list (string * list DeliveryLocation)) :=
  o ← groupedLocations locations optimizedOrder; Ok (ownEntries o).

(** * Vocabulary of the properties *)

Definition kept (rid : string) (locations : list DeliveryLocation)
    : list DeliveryLocation :=
  filter (λ l, id l ≠ rid) locations.

(** The first stop left is promoted: the removed id is that of
    [locations[0]]. *)
Definition removesFirst (rid : string) (locations : list DeliveryLocation) : bool :=
  match locations with
  | l0 :: _ => String.eqb (id l0) rid
  | [] => false
  end.

(** A removal leaves these fields of a stop alone. *)
Definition sameFrame (old new : DeliveryLocation) : Prop :=
  id new = id old ∧ coordinates new = coordinates old ∧
  address new = address old ∧ customerName new = customerName old ∧
  phoneNumber new = phoneNumber old ∧ zone new = zone old ∧
  status new = status old.

Definition nonDepot (l : DeliveryLocation) : Prop := truthy (isDepot l) = false.

(** The registry invariant on the depot flag: only the first stop can
    carry it. *)
Definition depotOnlyFirst (locations : list DeliveryLocation) : Prop :=
  Forall nonDepot (tail locations).

(** What the specification describes: the legs' translated steps in leg
    order, with an arrival step between consecutive legs; [k] is the index
    of the first leg of [legs]. *)
Fixpoint spec_flattenLegs (k : nat) (legs : list (list NavigationStep))
    : list NavigationStep :=
  match legs with
  | [] => []
  | l :: rest =>
      match rest with
      | [] => l
      | _ :: _ => l ++ arrivalStep k :: spec_flattenLegs (S k) rest
      end
  end.

(** What the leg at index [i] of [L] legs adds to the steps: its
    translated steps, followed by an arrival step when it is not the last
    leg; nothing when it has no steps array. *)
Definition legContribution (L i : nat) (leg : OsrmLeg) : list NavigationStep :=
  match leg_steps leg with
  | Some ss => legSteps ss ++ (if (S i <? L)%nat then [arrivalStep i] else [])
  | None => []
  end.

(** What one turn of the import loop pushes for order [i]. *)
Definition pushedFor (env : ImportEnv) (isFirst : bool) (i : nat)
    (order : ParsedOrder) : list DeliveryLocation :=
  let isDepot := isFirst && (i =? 0)%nat in
  match geocode env i with
  | GeocodeData (hit :: _) => [resolvedStop env isDepot i order hit]
  | GeocodeData [] => [unresolvedStop env isDepot i order]
  | GeocodeRejected => []
  end.

(** * Sample data *)

(** A host on which [text] parses to [v] and any other string is rejected. *)
Definition parsesTo {T : Type} (text : string) (v : T) : JsonParse T :=
  λ s, if String.eqb s text then Ok v else Throw (Error "Unexpected token").

Definition emptyState : AppState :=
  mkState [] None PICKUP_CLOSED false None None None.

Definition origin : Coordinates := mkCoordinates 0 0.

(** Every mirror is down. *)
Definition noRoads : string → list Coordinates → OsrmReply :=
  λ _ _, FetchRejected.

(** Depot A, then stops B and C, each added by a map click. *)
Definition stateABC : AppState :=
  handleMapClick origin "c"
    (handleMapClick origin "b" (handleMapClick origin "a" emptyState)).

(** Depot A and a stop imported under the customer's name. *)
Definition depotAndAlice : list DeliveryLocation :=
  [ mkLocation "a" DEPOT_NAME origin None (Some true) None None (Some "HQ") None;
    mkLocation "x" "Alice" origin (Some "1 Main Rd") (Some false) (Some "Alice")
               None (Some "Siam") None ].

Definition sampleStats : OptimizedRouteStats :=
  mkStats 12 30 40 0 40 "ok" None.

Definition sampleRoute : RouteOptimizationResult :=
  mkRoute (Some ["a"; "b"; "c"]) [] sampleStats None None.

Definition orderFor (customer zone : string) : ParsedOrder :=
  mkOrder (Some customer) None (Some "1 Main Rd") (Some zone).

(** Thirty map clicks from the empty registry. *)
Definition state30 : AppState :=
  foldl (λ st i, handleMapClick origin (show_nat i) st) emptyState (seq 0 30).

(** * Runs and registry invariants *)

(** The handlers run one after the other. *)
Section Runs.
Context {route_parser : JsonParse GeminiRouteJson}.
Context {orders_parser : JsonParse (list ParsedOrder)}.

Definition run (actions : list Action) (st : AppState) : AppState :=
  foldl (λ st a, step a st) st actions.
End Runs.

Definition isImport (a : Action) : bool :=
  match a with
  | ImportOrders _ _ _ => true
  | _ => false
  end.

(** A sequence of map clicks, each with the id generated for it. *)
Definition clickAll (clicks : list (Coordinates * string)) (st : AppState)
    : AppState :=
  foldl (λ st c, handleMapClick c.1 c.2 st) st clicks.

(** The stop the [i]-th click (from 0) on an empty registry creates. *)
Definition clickedStop (i : nat) (c : Coordinates * string) : DeliveryLocation :=
  {| id := c.2;
     name := if (i =? 0)%nat then DEPOT_NAME
             else STOP_PREFIX +:+ " " +:+ show_nat i;
     coordinates := c.1;
     address := None;
     isDepot := Some (i =? 0)%nat;
     customerName := None;
     phoneNumber := None;
     zone := Some (if (i =? 0)%nat then "HQ" else "ทั่วไป");
     status := None |}.

(** A registry that is empty or starts with the labeled depot. *)
Definition startsWithDepot (locations : list DeliveryLocation) : Prop :=
  match locations with
  | [] => True
  | l :: _ => isDepot l = Some true ∧ name l = DEPOT_NAME
  end.

(** The selection, if any, is the id of a stop. *)
Definition selectionValid (st : AppState) : Prop :=
  ∀ s, selectedId st = Some s → s ∈ id <$> locations st.

(** What the views let the user do in a state: select a stop that is
    shown; anything else at any time. *)
Definition offered (a : Action) (st : AppState) : Prop :=
  match a with
  | LocationSelect (Some s) => s ∈ id <$> locations st
  | LocationSelect None => False
  | _ => True
  end.

(** [generateId] gives ids that are new: not in the registry, and not twice
    in one import. *)
Definition freshIds (a : Action) (st : AppState) : Prop :=
  match a with
  | MapClick _ newId => newId ∉ id <$> locations st
  | ImportOrders _ _ env =>
      (∀ i, generateId env i ∉ id <$> locations st) ∧
      (∀ i j, generateId env i = generateId env j → i = j)
  | _ => True
  end.

(** The geocoder answered (with or without a hit): a stop is pushed. *)
Definition settled (r : GeocodeReply) : bool :=
  match r with
  | GeocodeRejected => false
  | GeocodeData _ => true
  end.

(** How an arrival step pushed between legs is recognized among the steps:
    its maneuver is an arrival and its text starts as [arrivalStep]'s does. *)
Definition isArrivalMarker (s : NavigationStep) : bool :=
  String.eqb (maneuver_type (maneuver s)) "arrive"
  && String.prefix "ถึงจุดส่งสินค้าที่ " (instruction s).

Definition hasSteps (leg : OsrmLeg) : bool :=
  match leg_steps leg with
  | Some _ => true
  | None => false
  end.

(** A tab, a line break or a space. *)
Definition asciiBlank (c : ascii) : Prop :=
  c ∈ bytes [9; 10; 11; 12; 13; 32]%nat.

(** What the loop of the grouping keeps: the groups built from the stops
    [seen] have distinct names, each holds at least one stop and only
    stops of its zone, in the order of [seen], and together they hold the
    stops of [seen], each once. *)
Definition groupsOf (seen : list DeliveryLocation)
    (groups : list (string * list DeliveryLocation)) : Prop :=
  NoDup groups.*1 ∧
  Forall (λ kv, kv.2 ≠ [] ∧ Forall (λ l, zoneOf l = kv.1) kv.2 ∧
                kv.2 `sublist_of` seen) groups ∧
  concat groups.*2 ≡ₚ seen.

(** More sample data. *)
Definition sampleOrders : list ParsedOrder :=
  [orderFor "Dao" "Siam"; orderFor "Ek" "Bang Na"].

Definition sampleRouteJson : GeminiRouteJson :=
  mkGeminiRouteJson (Some ["a"; "c"; "b"]) None (Some sampleStats).

Definition routeHost : JsonParse GeminiRouteJson := parsesTo "r" sampleRouteJson.
Definition ordersHost : JsonParse (list ParsedOrder) := parsesTo "o" sampleOrders.
Definition savedHost : JsonParse SavedJson :=
  parsesTo "{saved}" (SavedValue (Some depotAndAlice) None).

(** The geocoder rejects the first request and matches the others. *)
Definition firstRejected : ImportEnv :=
  mkImportEnv (λ i, if (i =? 0)%nat then GeocodeRejected
                    else GeocodeData [(13.8%Q, 100.6%Q)])
              (λ i, "imported-" +:+ show_nat i) (λ _, (0%Q, 0%Q)).

(** The geocoder matches every request. *)
Definition allMatched : ImportEnv :=
  mkImportEnv (λ _, GeocodeData [(13.8%Q, 100.6%Q)])
              (λ i, "imported-" +:+ show_nat i) (λ _, (0%Q, 0%Q)).

Definition stopC : DeliveryLocation :=
  mkLocation "c" (STOP_PREFIX +:+ " 2") origin None (Some false) None None
             (Some "ทั่วไป") None.

(** A depot that has no zone of its own, and a stop with a zone. *)
Definition bareDepotAndAlice : list DeliveryLocation :=
  [ mkLocation "a" DEPOT_NAME origin None (Some true) None None None None;
    mkLocation "x" "Alice" origin None (Some false) (Some "Alice") None
               (Some "Siam") None ].

Definition sampleTurn : OsrmStep :=
  mkOsrmStep (mkManeuver "turn" (Some "left")) (Some "Main Rd") 120 15.

(** * Properties *)

(** ** Removing a stop *)

Lemma sameFrame_refl l : sameFrame l l.
Proof. by repeat split. Qed.

Lemma sameFrame_trans a b c : sameFrame a b → sameFrame b c → sameFrame a c.
Proof.
  unfold sameFrame. intros (?&?&?&?&?&?&?) (?&?&?&?&?&?&?).
  repeat split; congruence.
Qed.

Lemma renumber_frame idx loc :
  sameFrame loc (renumber idx loc) ∧ isDepot (renumber idx loc) = isDepot loc.
Proof.
  unfold renumber.
  destruct (truthy (isDepot loc)); [by split; [apply sameFrame_refl|]|].
  destruct (String.prefix STOP_PREFIX (name loc));
    by split; [repeat split|].
Qed.

Lemma promoteFirst_length rid locs news :
  length (promoteFirst rid locs news) = length news.
Proof.
  destruct news as [|n0 rest], locs as [|l0 ?]; simpl; try done.
  by destruct (String.eqb (id l0) rid).
Qed.

Lemma promoteFirst_tail rid locs news i :
  promoteFirst rid locs news !! S i = news !! S i.
Proof.
  destruct news as [|n0 rest], locs as [|l0 ?]; simpl; try done.
  by destruct (String.eqb (id l0) rid).
Qed.

Lemma promoteFirst_keep rid locs news :
  removesFirst rid locs = false → promoteFirst rid locs news = news.
Proof.
  destruct news as [|n0 rest], locs as [|l0 ?]; simpl; try done.
  by intros ->.
Qed.

Lemma promoteFirst_head rid locs n0 rest :
  removesFirst rid locs = true →
  promoteFirst rid locs (n0 :: rest)
  = withName DEPOT_NAME (withIsDepot (Some true) n0) :: rest.
Proof.
  destruct locs as [|l0 ?]; simpl; [done|]. by intros ->.
Qed.

Lemma removeLocation_length rid locs :
  length (removeLocation rid locs) = length (kept rid locs).
Proof.
  unfold removeLocation. by rewrite length_imap, promoteFirst_length.
Qed.

Lemma removeLocation_lookup rid locs i :
  removeLocation rid locs !! i
  = renumber i <$> promoteFirst rid locs (kept rid locs) !! i.
Proof. unfold removeLocation. apply list_lookup_imap. Qed.

Lemma renumber_depot idx l : truthy (isDepot l) = true → renumber idx l = l.
Proof. unfold renumber. by intros ->. Qed.

Lemma handleRemoveLocation_locations rid st :
  locations (handleRemoveLocation rid st) = removeLocation rid (locations st).
Proof.
  unfold handleRemoveLocation. destruct (selectedId st) as [sel|]; [|done].
  by destruct (String.eqb sel rid).
Qed.

(** C10. A removal changes nothing but labels and the promoted stop's depot
    flag: the registry after [handleRemoveLocation] is the list of the
    stops left, each with its id, coordinates, address, customer name,
    phone number, zone and status as before; a stop whose [isDepot]
    differs from before is the first one, promoted because the removed id
    was that of [locations[0]]; and the name of a stop is as before, or is
    the depot label written on the promoted stop, or is the prefix followed
    by the stop's position, written on a stop that is not the depot and
    whose name started with the prefix. *)
Theorem removal_frame (rid : string) (st : AppState) :
  let locs := locations st in
  let after := locations (handleRemoveLocation rid st) in
  length after = length (kept rid locs) ∧
  ∀ i old new,
    kept rid locs !! i = Some old →
    after !! i = Some new →
    sameFrame old new ∧
    (isDepot new ≠ isDepot old →
     i = 0%nat ∧ isDepot new = Some true ∧ removesFirst rid locs = true) ∧
    (name new = name old ∨
     (i = 0%nat ∧ removesFirst rid locs = true ∧ name new = DEPOT_NAME) ∨
     (nonDepot new ∧ String.prefix STOP_PREFIX (name old) = true ∧
      name new = STOP_PREFIX +:+ " " +:+ show_nat i)).
Proof.
  intros locs after. subst after. rewrite handleRemoveLocation_locations.
  fold locs. split; [apply removeLocation_length|].
  intros i old new Hold Hnew.
  rewrite removeLocation_lookup in Hnew.
  destruct (promoteFirst rid locs (kept rid locs) !! i) as [mid|] eqn:Hmid;
    [|done].
  injection Hnew as <-.
  assert (∀ l, sameFrame l (renumber i l) ∧
               (isDepot (renumber i l) ≠ isDepot l → False) ∧
               (name (renumber i l) = name l ∨
                (nonDepot (renumber i l) ∧
                 String.prefix STOP_PREFIX (name l) = true ∧
                 name (renumber i l) = STOP_PREFIX +:+ " " +:+ show_nat i)))
    as Hren.
  { intros l. destruct (renumber_frame i l) as [Hfr Hdep].
    split; [done|]. split; [by rewrite Hdep|].
    unfold renumber, nonDepot.
    destruct (truthy (isDepot l)) eqn:Ht; [by left|].
    destruct (String.prefix STOP_PREFIX (name l)) eqn:Hp; [|by left].
    right. by repeat split. }
  assert (removesFirst rid locs = true → i = 0%nat →
          mid = withName DEPOT_NAME (withIsDepot (Some true) old)) as Hpromoted.
  { intros Hrm ->. destruct (kept rid locs) as [|n0 rest] eqn:Hk; [done|].
    rewrite promoteFirst_head in Hmid by done.
    injection Hold as ->. by injection Hmid as <-. }
  assert ((removesFirst rid locs = false ∨ i ≠ 0%nat) → mid = old) as Hsame.
  { intros [Hrm|Hi].
    - rewrite promoteFirst_keep in Hmid by done. congruence.
    - destruct i as [|i]; [done|]. rewrite promoteFirst_tail in Hmid.
      congruence. }
  destruct (removesFirst rid locs) eqn:Hrm, i as [|i].
  - rewrite (Hpromoted eq_refl eq_refl).
    rewrite renumber_depot by done.
    split; [by repeat split|]. split; [done|]. right. left. done.
  - rewrite (Hsame (or_intror (Nat.neq_succ_0 i))).
    destruct (Hren old) as (Hfr & Hdep & Hname).
    split; [done|]. split; [by intros ?%Hdep|].
    destruct Hname as [?|?]; [by left|by right; right].
  - rewrite (Hsame (or_introl eq_refl)).
    destruct (Hren old) as (Hfr & Hdep & Hname).
    split; [done|]. split; [by intros ?%Hdep|].
    destruct Hname as [?|?]; [by left|by right; right].
  - rewrite (Hsame (or_introl eq_refl)).
    destruct (Hren old) as (Hfr & Hdep & Hname).
    split; [done|]. split; [by intros ?%Hdep|].
    destruct Hname as [?|?]; [by left|by right; right].
Qed.

Lemma kept_cons rid l locs :
  kept rid (l :: locs)
  = if String.eqb (id l) rid then kept rid locs else l :: kept rid locs.
Proof.
  unfold kept. rewrite filter_cons.
  destruct (String.eqb_spec (id l) rid); by case_decide.
Qed.

Lemma kept_nonDepot rid locs :
  Forall nonDepot locs → Forall nonDepot (kept rid locs).
Proof.
  intros H. apply Forall_forall. intros x [_ Hx]%list_elem_of_filter.
  revert x Hx. by apply Forall_forall.
Qed.

Lemma renumber_nonDepot idx l : nonDepot l → nonDepot (renumber idx l).
Proof.
  unfold nonDepot. intros H. by rewrite (proj2 (renumber_frame idx l)).
Qed.

Lemma imap_renumber_nonDepot (f : nat → nat) ls :
  Forall nonDepot ls → Forall nonDepot (imap (λ i, renumber (f i)) ls).
Proof.
  intros H. revert f. induction H as [|l ls Hl _ IH]; intros f; simpl.
  - constructor.
  - constructor; [by apply renumber_nonDepot|]. apply (IH (f ∘ S)).
Qed.

Lemma renumber_other idx l :
  nonDepot l →
  renumber idx l
  = if String.prefix STOP_PREFIX (name l)
    then withName (STOP_PREFIX +:+ " " +:+ show_nat idx) l else l.
Proof. unfold renumber, nonDepot. by intros ->. Qed.


(** C6. In a registry where only the first stop can be flagged as depot:
    when [handleRemoveLocation] removes the depot and some stop is left,
    the registry becomes the stops left with the first of them promoted.
    The promoted stop gets the depot flag and the depot label whatever its
    name was and keeps its other fields; the stops after it are only
    renumbered, and none of them is a depot. *)
Theorem depot_removal_promotes (rid : string) (st : AppState)
    (d : DeliveryLocation) :
  depotOnlyFirst (locations st) →
  d ∈ locations st →
  truthy (isDepot d) = true →
  rid = id d →
  kept rid (locations st) ≠ [] →
  ∃ p rest p' rest',
    kept rid (locations st) = p :: rest ∧
    locations (handleRemoveLocation rid st) = p' :: rest' ∧
    p' = withName DEPOT_NAME (withIsDepot (Some true) p) ∧
    rest' = imap (λ i, renumber (S i)) rest ∧
    sameFrame p p' ∧
    name p' = DEPOT_NAME ∧
    isDepot p' = Some true ∧
    Forall nonDepot rest'.
Proof.
  intros Hinv Hd Hdep -> Hne. rewrite handleRemoveLocation_locations.
  destruct (locations st) as [|d' tl]; [done|].
  unfold depotOnlyFirst in Hinv. simpl in Hinv.
  apply elem_of_cons in Hd as [->|Hd].
  2: { exfalso. rewrite Forall_forall in Hinv. specialize (Hinv d Hd).
       unfold nonDepot in Hinv. congruence. }
  assert (kept (id d') (d' :: tl) = kept (id d') tl) as Hk.
  { rewrite kept_cons. by rewrite String.eqb_refl. }
  destruct (kept (id d') (d' :: tl)) as [|p rest] eqn:Hkept; [done|].
  assert (Forall nonDepot (p :: rest)) as Hall.
  { rewrite Hk. by apply kept_nonDepot. }
  apply Forall_cons in Hall as [_ Hrest].
  set (p' := withName DEPOT_NAME (withIsDepot (Some true) p)).
  exists p, rest, p', (imap (λ i, renumber (S i)) rest).
  split; [done|]. split.
  - unfold removeLocation. fold (kept (id d') (d' :: tl)). rewrite Hkept.
    rewrite promoteFirst_head by (simpl; apply String.eqb_refl).
    rewrite imap_cons. by rewrite renumber_depot.
  - split; [done|]. split; [done|].
    split; [by repeat split|]. split; [done|]. split; [done|].
    by apply imap_renumber_nonDepot.
Qed.

(** ** The road-geometry adapter *)

Lemma forEachLeg_all_steps (n i : nat) (stepss : list (list OsrmStep))
    (legs : list OsrmLeg) (acc : list NavigationStep) :
  leg_steps <$> legs = Some <$> stepss →
  n = (i + length legs)%nat →
  forEachLeg n i legs acc = acc ++ spec_flattenLegs i (legSteps <$> stepss).
Proof.
  revert i legs acc.
  induction stepss as [|ss stepss IH]; intros i [|leg legs] acc Hs Hn;
    try discriminate Hs.
  - simpl. by rewrite app_nil_r.
  - rewrite !fmap_cons in Hs. injection Hs as Hleg Hrest.
    cbn [forEachLeg]. unfold forEachLeg_body. rewrite Hleg.
    rewrite (IH (S i) legs) by (done || (simpl in Hn; lia)).
    rewrite fmap_cons. cbn [spec_flattenLegs].
    destruct stepss as [|ss' stepss'].
    + destruct legs; [|discriminate Hrest]. simpl in Hn.
      replace (Z.of_nat i <? Z.of_nat n - 1)%Z with false
        by (symmetry; apply Z.ltb_ge; lia).
      simpl. by rewrite app_nil_r.
    + destruct legs as [|leg' legs']; [discriminate Hrest|]. simpl in Hn.
      replace (Z.of_nat i <? Z.of_nat n - 1)%Z with true
        by (symmetry; apply Z.ltb_lt; lia).
      rewrite fmap_cons. by rewrite <- !app_assoc.
Qed.

Lemma spec_flattenLegs_cons2 k l l' rest :
  spec_flattenLegs k (l :: l' :: rest)
  = l ++ arrivalStep k :: spec_flattenLegs (S k) (l' :: rest).
Proof. done. Qed.

Lemma spec_flattenLegs_length (k : nat) (lss : list (list NavigationStep)) :
  length (spec_flattenLegs k lss)
  = (sum_list (length <$> lss) + (length lss - 1))%nat.
Proof.
  revert k. induction lss as [|l lss IH]; intros k; [done|].
  destruct lss as [|l' rest].
  - simpl. lia.
  - rewrite spec_flattenLegs_cons2, length_app. cbn [length].
    rewrite IH. rewrite !fmap_cons. cbn [sum_list length].
    unfold Datatypes.id. lia.
Qed.

Lemma tryServers_first_usable fetch coords failed url rest route :
  Forall (λ u, usableRoute (fetch u coords) = None) failed →
  usableRoute (fetch url coords) = Some route →
  tryServers fetch coords (failed ++ url :: rest)
  = {| geometry := routeGeometry route; steps := routeSteps route |}.
Proof.
  intros Hfailed Hok. induction Hfailed as [|u us Hu _ IH]; simpl.
  - by rewrite Hok.
  - by rewrite Hu.
Qed.

Lemma tryServers_all_fail fetch coords servers :
  Forall (λ u, usableRoute (fetch u coords) = None) servers →
  tryServers fetch coords servers = {| geometry := []; steps := [] |}.
Proof.
  intros H. induction H as [|u us Hu _ IH]; simpl; [done|]. by rewrite Hu.
Qed.

Lemma forEachLeg_body_contribution (n i : nat) (leg : OsrmLeg)
    (acc : list NavigationStep) :
  forEachLeg_body n acc i leg = acc ++ legContribution n i leg.
Proof.
  unfold forEachLeg_body, legContribution.
  destruct (leg_steps leg) as [ss|]; [|by rewrite app_nil_r].
  destruct (Z.ltb_spec (Z.of_nat i) (Z.of_nat n - 1)) as [Hlt|Hge],
           (Nat.ltb_spec (S i) n) as [Hlt'|Hge']; try lia.
  - by rewrite app_assoc.
  - by rewrite app_nil_r.
Qed.

Lemma forEachLeg_contributions (n : nat) (legs : list OsrmLeg) :
  ∀ (i : nat) (acc : list NavigationStep),
    forEachLeg n i legs acc
    = acc ++ concat (imap (λ j, legContribution n (i + j)) legs).
Proof.
  induction legs as [|leg legs IH]; intros i acc.
  - simpl. by rewrite app_nil_r.
  - cbn [forEachLeg]. rewrite IH, forEachLeg_body_contribution.
    rewrite imap_cons. cbn [concat]. rewrite Nat.add_0_r, <- app_assoc.
    do 2 f_equal. f_equal. apply imap_ext. intros j leg' _. simpl.
    f_equal. lia.
Qed.

(** C7, as the code has it. When a mirror gives a usable answer (the
    mirrors before it did not), the steps returned are what the legs of
    its first route contribute, in leg order: a leg with a steps array
    contributes its translated steps, followed by one arrival step unless
    it is the last leg; a leg without a steps array contributes neither
    steps nor an arrival step. When every leg carries a steps array, these
    are the legs' translated steps with one arrival step between
    consecutive legs: L - 1 arrival steps for L legs. *)
Theorem flattened_steps (fetch : string → list Coordinates → OsrmReply)
    (locs : list DeliveryLocation) (failed : list string) (url : string)
    (rest : list string) (route : OsrmRoute) (legs : list OsrmLeg) :
  OSRM_SERVERS = failed ++ url :: rest →
  Forall (λ u, usableRoute (fetch u (coordinates <$> locs)) = None) failed →
  usableRoute (fetch url (coordinates <$> locs)) = Some route →
  route_legs route = Some legs →
  steps (fetchRouteData fetch locs)
  = concat (imap (legContribution (length legs)) legs) ∧
  ∀ stepss : list (list OsrmStep),
    leg_steps <$> legs = Some <$> stepss →
    steps (fetchRouteData fetch locs)
    = spec_flattenLegs 0 (legSteps <$> stepss) ∧
    length (steps (fetchRouteData fetch locs))
    = (sum_list (length <$> stepss) + (length legs - 1))%nat.
Proof.
  intros Hservers Hfailed Hok Hlegs.
  assert (steps (fetchRouteData fetch locs) = forEachLeg (length legs) 0 legs [])
    as Hrun.
  { unfold fetchRouteData. rewrite Hservers.
    change (map coordinates locs) with (coordinates <$> locs).
    rewrite (tryServers_first_usable _ _ _ _ _ route) by done. simpl.
    unfold routeSteps. by rewrite Hlegs. }
  split.
  { rewrite Hrun, forEachLeg_contributions. simpl. f_equal. }
  intros stepss Hsteps.
  assert (steps (fetchRouteData fetch locs)
          = spec_flattenLegs 0 (legSteps <$> stepss)) as Heq.
  { rewrite Hrun. by rewrite (forEachLeg_all_steps _ 0 stepss). }
  split; [done|]. rewrite Heq, spec_flattenLegs_length.
  rewrite length_fmap.
  assert (length legs = length stepss) as ->.
  { by rewrite <- (length_fmap leg_steps), Hsteps, length_fmap. }
  f_equal. f_equal. rewrite <- list_fmap_compose.
  apply list_fmap_ext. intros _ ss _. unfold legSteps. simpl.
  by rewrite length_map.
Qed.

(** ** The optimization orchestrator *)

Lemma includes_elem_of (x : string) (l : list string) :
  includes x l = true ↔ x ∈ l.
Proof.
  unfold includes. rewrite existsb_exists. split.
  - intros (y & Hy & ->%String.eqb_eq). by apply list_elem_of_In.
  - intros Hx. exists x. split; [by apply list_elem_of_In|apply String.eqb_refl].
Qed.

Lemma normalizeOrder_absent (depotId : string) (order : list string) :
  order ≠ [] → depotId ∉ order →
  normalizeOrder depotId (Some order) = Some (depotId :: order).
Proof.
  intros Hne Hnot. destruct order as [|first rest]; [done|]. simpl.
  destruct (String.eqb_spec first depotId) as [->|_].
  - exfalso. apply Hnot, elem_of_cons. by left.
  - simpl. destruct (String.eqb_spec depotId first) as [->|_].
    + exfalso. apply Hnot, elem_of_cons. by left.
    + simpl. destruct (includes depotId rest) eqn:Hin; [|done].
      exfalso. apply Hnot, elem_of_cons. right. by apply includes_elem_of.
Qed.

Lemma normalizeOrder_first (depotId : string) (rest : list string) :
  normalizeOrder depotId (Some (depotId :: rest)) = Some (depotId :: rest).
Proof. simpl. by rewrite String.eqb_refl. Qed.

(** A depot id that is in the order, but not first, stays where it is. *)
Lemma normalizeOrder_elsewhere (depotId first : string) (rest : list string) :
  first ≠ depotId → depotId ∈ rest →
  normalizeOrder depotId (Some (first :: rest)) = Some (first :: rest).
Proof.
  intros Hne Hin. simpl.
  destruct (String.eqb_spec first depotId) as [|_]; [done|]. simpl.
  destruct (String.eqb depotId first); simpl; [done|].
  apply includes_elem_of in Hin. by rewrite Hin.
Qed.

Lemma normalizeOrder_empty (depotId : string) :
  normalizeOrder depotId (Some []) = Some [] ∧ normalizeOrder depotId None = None.
Proof. done. Qed.

Section Orchestration.
Context {route_parser : JsonParse GeminiRouteJson}.
Context {orders_parser : JsonParse (list ParsedOrder)}.
Context {saved_parser : JsonParse SavedJson}.

Lemma optimize_rejected locs vt e fetch :
  (2 ≤ length locs)%nat →
  optimizeRouteWithGemini locs vt (GenRejected e) fetch = Throw e.
Proof. destruct locs as [|? [|? ?]]; simpl; (lia || done). Qed.

Lemma optimize_bad_json locs vt text e fetch :
  (2 ≤ length locs)%nat →
  JSON_parse (T:=GeminiRouteJson) (str_or text "{}") = Throw e →
  optimizeRouteWithGemini locs vt (GenResponse text) fetch = Throw e.
Proof.
  intros Hlen Hparse. destruct locs as [|? [|? ?]]; simpl in Hlen; try lia.
  unfold optimizeRouteWithGemini. cbn [await_generateContent mbind result_bind].
  by rewrite Hparse.
Qed.

Lemma optimize_no_stats locs vt text raw fetch :
  (2 ≤ length locs)%nat →
  JSON_parse (str_or text "{}") = Ok raw →
  json_stats raw = None →
  optimizeRouteWithGemini locs vt (GenResponse text) fetch = Throw TYPE_ERROR_STATS.
Proof.
  intros Hlen Hparse Hstats. destruct locs as [|? [|? ?]]; simpl in Hlen; try lia.
  unfold optimizeRouteWithGemini. cbn [await_generateContent mbind result_bind].
  rewrite Hparse. cbn [mbind result_bind]. by rewrite Hstats.
Qed.

Lemma optimize_ok first second more vt text raw st fetch :
  let locs := first :: second :: more in
  JSON_parse (str_or text "{}") = Ok raw →
  json_stats raw = Some st →
  ∃ result,
    optimizeRouteWithGemini locs vt (GenResponse text) fetch = Ok result ∧
    optimizedOrder result
    = normalizeOrder (id (depotOf first locs)) (json_optimizedOrder raw) ∧
    segments result = default [] (json_segments raw) ∧
    stats result = stamped vt st ∧
    ∀ ids, optimizedOrder result = Some ids →
      if (1 <? length (omap (findById locs) ids))%nat
      then pathPolyline result
           = Some (geometry (fetchRouteData fetch (omap (findById locs) ids))) ∧
           navigationInstructions result
           = Some (steps (fetchRouteData fetch (omap (findById locs) ids)))
      else pathPolyline result = None ∧ navigationInstructions result = None.
Proof.
  intros locs Hparse Hstats. unfold optimizeRouteWithGemini. subst locs.
  cbn [await_generateContent mbind result_bind]. rewrite Hparse. cbn [mbind result_bind].
  rewrite Hstats. cbn [mbind result_bind].
  eexists. split; [reflexivity|]. cbn [optimizedOrder segments stats pathPolyline
    navigationInstructions].
  split; [done|]. split; [done|]. split; [done|].
  intros ids ->. destruct ids as [|i0 ids']; [done|].
  by destruct (1 <? _)%nat.
Qed.

(** C1, as the code has it. A returned order that is not empty and does
    not contain the depot id gets the depot id prepended, and a returned
    order that starts with the depot id is kept: in both cases the final
    order starts with the depot id. An empty order stays empty and a
    missing order stays missing. *)
Theorem normalized_order_starts_with_depot
    (first second : DeliveryLocation) (more : list DeliveryLocation)
    (vt : VehicleType) (text : option string)
    (fetch : string → list Coordinates → OsrmReply)
    (raw : GeminiRouteJson) (st : OptimizedRouteStats) :
  let locs := first :: second :: more in
  let depotId := id (depotOf first locs) in
  JSON_parse (str_or text "{}") = Ok raw →
  json_stats raw = Some st →
  ∃ result,
    optimizeRouteWithGemini locs vt (GenResponse text) fetch = Ok result ∧
    (∀ order, json_optimizedOrder raw = Some order → order ≠ [] →
       depotId ∉ order →
       optimizedOrder result = Some (depotId :: order)) ∧
    (∀ order, json_optimizedOrder raw = Some order →
       head order = Some depotId →
       optimizedOrder result = Some order) ∧
    (∀ order, json_optimizedOrder raw = Some order → order ≠ [] →
       head order = Some depotId ∨ depotId ∉ order →
       ∃ final, optimizedOrder result = Some final ∧
                head final = Some depotId) ∧
    (json_optimizedOrder raw = Some [] → optimizedOrder result = Some []) ∧
    (json_optimizedOrder raw = None → optimizedOrder result = None).
Proof.
  intros locs depotId Hparse Hstats.
  destruct (optimize_ok first second more vt text raw st fetch Hparse Hstats)
    as (result & Hres & Hord & _).
  fold locs depotId in Hres, Hord.
  assert (∀ order, json_optimizedOrder raw = Some order → order ≠ [] →
            depotId ∉ order →
            optimizedOrder result = Some (depotId :: order)) as Habsent.
  { intros order Horder Hne Hnot. rewrite Hord, Horder.
    by apply normalizeOrder_absent. }
  assert (∀ order, json_optimizedOrder raw = Some order →
            head order = Some depotId →
            optimizedOrder result = Some order) as Hfirst.
  { intros order Horder Hhead. rewrite Hord, Horder.
    destruct order as [|o rest]; [done|]. injection Hhead as ->.
    apply normalizeOrder_first. }
  exists result. split; [done|]. split; [done|]. split; [done|].
  split; [|split].
  - intros order Horder Hne [Hhead|Hnot].
    + exists order. by split; [apply Hfirst|].
    + exists (depotId :: order). by split; [apply Habsent|].
  - intros Horder. by rewrite Hord, Horder.
  - intros Horder. by rewrite Hord, Horder.
Qed.
End Orchestration.

(** ** Calculating a route *)

Section Calculate.
Context {route_parser : JsonParse GeminiRouteJson}.

Lemma handleCalculateRoute_throw st reply fetch e :
  (2 ≤ length (locations st))%nat →
  optimizeRouteWithGemini (locations st) (vehicleType st) reply fetch = Throw e →
  handleCalculateRoute reply fetch st
  = setIsCalculating false
      (setError (Some (CALCULATE_FAILED +:+ str_or (Some (message e)) AI_ERROR))
                (setError None (setIsCalculating true st))).
Proof.
  intros Hlen Hthrow. unfold handleCalculateRoute.
  destruct (Nat.ltb_spec (length (locations st)) 2) as [|_]; [lia|].
  by rewrite Hthrow.
Qed.

Lemma handleCalculateRoute_ok st reply fetch r :
  (2 ≤ length (locations st))%nat →
  optimizeRouteWithGemini (locations st) (vehicleType st) reply fetch = Ok r →
  handleCalculateRoute reply fetch st
  = setIsCalculating false
      (setOptimizedRoute (Some r) (setError None (setIsCalculating true st))).
Proof.
  intros Hlen Hok. unfold handleCalculateRoute.
  destruct (Nat.ltb_spec (length (locations st)) 2) as [|_]; [lia|].
  by rewrite Hok.
Qed.

(** C8. With two stops or more: (1) whenever the optimization throws, the
    stored Route Result and the stops are as before and the error shown
    is the failure prefix followed by the error's message (or the default
    text when the message is empty); (2) it throws when the model call
    rejects, when its text is not JSON, and when the parsed answer has no
    stats to normalize; (3) whenever it returns a result, that result is
    stored and no error is shown; (4) when the answer is well formed and
    no mirror gives a usable route, a result is still returned and
    stored, with empty geometry and steps where the road call was made. *)
Theorem calculate_failures (st : AppState) (fetch : string → list Coordinates → OsrmReply) :
  (2 ≤ length (locations st))%nat →
  (∀ reply e,
     optimizeRouteWithGemini (locations st) (vehicleType st) reply fetch = Throw e →
     let st' := handleCalculateRoute reply fetch st in
     optimizedRoute st' = optimizedRoute st ∧
     locations st' = locations st ∧
     error st' = Some (CALCULATE_FAILED +:+ str_or (Some (message e)) AI_ERROR)) ∧
  (∀ e, optimizeRouteWithGemini (locations st) (vehicleType st) (GenRejected e) fetch
        = Throw e) ∧
  (∀ text e,
     JSON_parse (T:=GeminiRouteJson) (str_or text "{}") = Throw e →
     optimizeRouteWithGemini (locations st) (vehicleType st) (GenResponse text) fetch
     = Throw e) ∧
  (∀ text raw,
     JSON_parse (str_or text "{}") = Ok raw →
     json_stats raw = None →
     optimizeRouteWithGemini (locations st) (vehicleType st) (GenResponse text) fetch
     = Throw TYPE_ERROR_STATS) ∧
  (∀ reply r,
     optimizeRouteWithGemini (locations st) (vehicleType st) reply fetch = Ok r →
     let st' := handleCalculateRoute reply fetch st in
     optimizedRoute st' = Some r ∧ error st' = None) ∧
  (∀ text raw stats0,
     JSON_parse (str_or text "{}") = Ok raw →
     json_stats raw = Some stats0 →
     (∀ u coords, usableRoute (fetch u coords) = None) →
     ∃ r,
       optimizeRouteWithGemini (locations st) (vehicleType st) (GenResponse text) fetch
       = Ok r ∧
       optimizedRoute (handleCalculateRoute (GenResponse text) fetch st) = Some r ∧
       segments r = default [] (json_segments raw) ∧
       stats r = stamped (vehicleType st) stats0 ∧
       ∀ ids, optimizedOrder r = Some ids →
         (1 < length (omap (findById (locations st)) ids))%nat →
         pathPolyline r = Some [] ∧ navigationInstructions r = Some []).
Proof.
  intros Hlen. repeat split.
  - by rewrite (handleCalculateRoute_throw _ _ _ e).
  - by rewrite (handleCalculateRoute_throw _ _ _ e).
  - by rewrite (handleCalculateRoute_throw _ _ _ e).
  - intros e. by apply optimize_rejected.
  - intros text e. by apply optimize_bad_json.
  - intros text raw. by apply optimize_no_stats.
  - by rewrite (handleCalculateRoute_ok _ _ _ r).
  - by rewrite (handleCalculateRoute_ok _ _ _ r).
  - intros text raw stats0 Hparse Hstats Hfail.
    destruct (locations st) as [|first [|second more]] eqn:Hlocs;
      simpl in Hlen; try lia.
    destruct (optimize_ok first second more (vehicleType st) text raw stats0
                fetch Hparse Hstats) as (r & Hr & _ & Hseg & Hst & Hpath).
    exists r. split; [done|]. split.
    { rewrite (handleCalculateRoute_ok _ _ _ r); [done|rewrite Hlocs; simpl; lia|].
      by rewrite Hlocs. }
    split; [done|]. split; [done|].
    intros ids Hids Hmany. specialize (Hpath ids Hids).
    destruct (Nat.ltb_spec 1 (length (omap (findById (first :: second :: more)) ids)))
      as [_|]; [|lia].
    unfold fetchRouteData in Hpath.
    rewrite tryServers_all_fail in Hpath; [done|].
    apply Forall_forall. intros u _. apply Hfail.
Qed.
End Calculate.

(** ** Start-up *)

Section Startup.
Context {saved_parser : JsonParse SavedJson}.

Lemma initialState_no_data :
  initialState (Ok None)
  = mkState [] None PICKUP_CLOSED false None None None.
Proof. done. Qed.

(** A [getItem] that throws is caught as well. *)
Lemma initialState_getItem_throws e :
  initialState (Throw e) = initialState (Ok None).
Proof. done. Qed.

(** C9. Saved data that [JSON.parse] rejects gives the start state of no
    saved data: no stops and no Route Result; the initializers return
    (the state exists) whatever the parser threw. *)
Theorem invalid_saved_data_is_no_data (s : string) (e : JsError) :
  JSON_parse (T:=SavedJson) s = Throw e →
  initialState (Ok (Some s)) = initialState (Ok None) ∧
  locations (initialState (Ok None)) = [] ∧
  optimizedRoute (initialState (Ok None)) = None.
Proof.
  intros Hparse. split; [|done].
  unfold initialState, initLocations, initOptimizedRoute.
  cbn [mbind result_bind]. destruct (String.eqb s ""); [done|].
  by rewrite Hparse.
Qed.
End Startup.

(** ** Importing orders *)

Lemma importLoop_acc env isFirst orders : ∀ i acc,
  importLoop env isFirst i orders acc
  = acc ++ importLoop env isFirst i orders [].
Proof.
  induction orders as [|o rest IH]; intros i acc; simpl.
  - by rewrite app_nil_r.
  - rewrite IH. rewrite (IH _ (match geocode env i with
                               | GeocodeRejected => [] | _ => _ end)).
    rewrite app_assoc. f_equal.
    destruct (geocode env i) as [|[|hit hits]]; simpl; by rewrite ?app_nil_r.
Qed.

Lemma importLoop_cons env isFirst i o rest :
  importLoop env isFirst i (o :: rest) []
  = pushedFor env isFirst i o ++ importLoop env isFirst (S i) rest [].
Proof.
  cbn [importLoop]. rewrite importLoop_acc. by f_equal.
Qed.

Lemma importLoop_settled env isFirst orders : ∀ i,
  (∀ j, (j < length orders)%nat → geocode env (i + j) ≠ GeocodeRejected) →
  length (importLoop env isFirst i orders []) = length orders ∧
  ∀ j o, orders !! j = Some o →
    importLoop env isFirst i orders [] !! j
    = head (pushedFor env isFirst (i + j) o).
Proof.
  induction orders as [|o rest IH]; intros i Hgeo; [done|].
  rewrite importLoop_cons.
  destruct (IH (S i)) as [IHlen IHlook].
  { intros j Hj. replace (S i + j)%nat with (i + S j)%nat by lia.
    apply Hgeo. simpl. lia. }
  assert (∃ s, pushedFor env isFirst i o = [s]) as [s Hs].
  { unfold pushedFor. specialize (Hgeo 0%nat). rewrite Nat.add_0_r in Hgeo.
    destruct (geocode env i) as [|[|hit hits]]; [|by eexists..].
    exfalso. apply Hgeo; [simpl; lia|done]. }
  rewrite Hs. split; [simpl; by rewrite IHlen|].
  intros [|j] o' Ho'; simpl in Ho'.
  - injection Ho' as <-. by rewrite Nat.add_0_r, Hs.
  - simpl. rewrite (IHlook j o' Ho'). by replace (S i + j)%nat with (i + S j)%nat by lia.
Qed.

Lemma pushedFor_nonDepot env isFirst i o :
  isFirst = false ∨ i ≠ 0%nat → Forall nonDepot (pushedFor env isFirst i o).
Proof.
  intros Hcase. unfold pushedFor.
  assert (isFirst && (i =? 0)%nat = false) as ->.
  { destruct Hcase as [->|Hi]; [done|].
    apply andb_false_iff. right. by apply Nat.eqb_neq. }
  destruct (geocode env i) as [|[|hit hits]]; repeat constructor.
Qed.

Lemma importLoop_nonDepot env isFirst orders : ∀ i,
  isFirst = false ∨ i ≠ 0%nat →
  Forall nonDepot (importLoop env isFirst i orders []).
Proof.
  induction orders as [|o rest IH]; intros i Hcase; [constructor|].
  rewrite importLoop_cons. apply Forall_app. split.
  - by apply pushedFor_nonDepot.
  - apply IH. destruct Hcase; [by left|right; lia].
Qed.

Lemma importLoop_depotOnlyFirst env isFirst orders :
  depotOnlyFirst (importLoop env isFirst 0 orders []).
Proof.
  unfold depotOnlyFirst. destruct orders as [|o rest]; [constructor|].
  rewrite importLoop_cons.
  pose proof (importLoop_nonDepot env isFirst rest 1) as Hrest.
  unfold pushedFor. destruct (geocode env 0) as [|[|hit hits]]; simpl.
  - apply Forall_tail. apply Hrest. by right.
  - apply Hrest. by right.
  - apply Hrest. by right.
Qed.

Section ImportRuns.
Context {orders_parser : JsonParse (list ParsedOrder)}.

Lemma handleImportOrders_done text reply env st orders :
  parseOrdersWithGemini text reply = Ok orders →
  orders ≠ [] →
  handleImportOrders text reply env st
  = setImportingStatus None
      (setLocations
         (locations st
          ++ importLoop env (length (locations st) =? 0)%nat 0 orders [])
         (setImportingStatus
            (Some ("กำลังค้นหาพิกัด " +:+ show_nat (length orders) +:+ " รายการ..."))
            (setImportingStatus (Some "กำลังวิเคราะห์ข้อมูลด้วย AI...") st))).
Proof.
  intros Hparse Hne. unfold handleImportOrders. rewrite Hparse.
  cbn [mbind result_bind]. by destruct orders.
Qed.

(** An import never writes the Route Result, whatever its outcome. *)
Lemma handleImportOrders_route text reply env st :
  optimizedRoute (handleImportOrders text reply env st) = optimizedRoute st.
Proof.
  unfold handleImportOrders.
  destruct (parseOrdersWithGemini text reply) as [orders|e]; [|done].
  cbn [mbind result_bind]. by destruct orders.
Qed.

(** An import appends what its loop built, whatever the count. *)
Lemma handleImportOrders_length text reply env st orders :
  parseOrdersWithGemini text reply = Ok orders →
  orders ≠ [] →
  (∀ j, (j < length orders)%nat → geocode env j ≠ GeocodeRejected) →
  length (locations (handleImportOrders text reply env st))
  = (length (locations st) + length orders)%nat.
Proof.
  intros Hparse Hne Hgeo. rewrite (handleImportOrders_done _ _ _ _ orders) by done.
  simpl. rewrite length_app.
  by rewrite (proj1 (importLoop_settled env _ orders 0 Hgeo)).
Qed.
End ImportRuns.

(** ** The stop registry *)

Lemma handleMapClick_full coords newId st :
  (30 ≤ length (locations st))%nat →
  handleMapClick coords newId st = setError (Some LIMIT_MESSAGE) st.
Proof.
  intros H. unfold handleMapClick.
  by destruct (Nat.leb_spec 30 (length (locations st))) as [_|]; [|lia].
Qed.

Lemma handleMapClick_adds coords newId st :
  (length (locations st) < 30)%nat →
  ∃ new,
    handleMapClick coords newId st
    = setError None (setOptimizedRoute None (setSelectedId (Some newId)
        (setLocations (locations st ++ [new]) st))) ∧
    id new = newId ∧ coordinates new = coords ∧
    isDepot new = Some (length (locations st) =? 0)%nat.
Proof.
  intros H. unfold handleMapClick.
  destruct (Nat.leb_spec 30 (length (locations st))) as [|_]; [lia|].
  by eexists.
Qed.

(** A map click never takes the registry beyond 30 stops. *)
Lemma handleMapClick_limit coords newId st :
  (length (locations st) ≤ 30)%nat →
  (length (locations (handleMapClick coords newId st)) ≤ 30)%nat.
Proof.
  intros H. destruct (Nat.leb_spec 30 (length (locations st))) as [Hfull|Hroom].
  - by rewrite handleMapClick_full.
  - destruct (handleMapClick_adds coords newId st Hroom) as (new & -> & _).
    simpl. rewrite length_app. simpl. lia.
Qed.

Lemma handleRemoveLocation_route rid st :
  optimizedRoute (handleRemoveLocation rid st) = None.
Proof.
  unfold handleRemoveLocation. destruct (selectedId st) as [sel|]; [|done].
  by destruct (String.eqb sel rid).
Qed.

(** Adding, removing and resetting invalidate the Route Result whenever
    they change the stops. *)
Lemma registry_change_invalidates coords newId rid confirmed st :
  (locations (handleMapClick coords newId st) ≠ locations st →
   optimizedRoute (handleMapClick coords newId st) = None) ∧
  optimizedRoute (handleRemoveLocation rid st) = None ∧
  (locations (handleReset confirmed st) ≠ locations st →
   optimizedRoute (handleReset confirmed st) = None).
Proof.
  split; [|split].
  - unfold handleMapClick. by destruct (30 <=? length (locations st))%nat.
  - apply handleRemoveLocation_route.
  - by destruct confirmed.
Qed.

Lemma kept_depotOnlyFirst rid locs :
  depotOnlyFirst locs → depotOnlyFirst (kept rid locs).
Proof.
  unfold depotOnlyFirst. destruct locs as [|l tl]; [done|]. simpl. intros H.
  rewrite kept_cons. destruct (String.eqb (id l) rid).
  - apply Forall_tail. by apply kept_nonDepot.
  - simpl. by apply kept_nonDepot.
Qed.

Lemma removeLocation_depotOnlyFirst rid locs :
  depotOnlyFirst locs → depotOnlyFirst (removeLocation rid locs).
Proof.
  intros H%(kept_depotOnlyFirst rid). unfold removeLocation.
  fold (kept rid locs). unfold depotOnlyFirst in *.
  assert (tail (promoteFirst rid locs (kept rid locs)) = tail (kept rid locs)) as Ht.
  { destruct (kept rid locs) as [|n0 rest], locs as [|l0 ?]; simpl; try done.
    by destruct (String.eqb (id l0) rid). }
  destruct (promoteFirst rid locs (kept rid locs)) as [|p rest]; [constructor|].
  rewrite imap_cons. simpl in *. rewrite Ht.
  by apply (imap_renumber_nonDepot S).
Qed.

Section Reachable.
Context {route_parser : JsonParse GeminiRouteJson}.
Context {orders_parser : JsonParse (list ParsedOrder)}.
Context {saved_parser : JsonParse SavedJson}.

Lemma handleCalculateRoute_locations reply fetch st :
  locations (handleCalculateRoute reply fetch st) = locations st.
Proof.
  unfold handleCalculateRoute.
  destruct (length (locations st) <? 2)%nat; [done|].
  by destruct (optimizeRouteWithGemini _ _ _ _).
Qed.

Lemma handleImportOrders_depotOnlyFirst text reply env st :
  depotOnlyFirst (locations st) →
  depotOnlyFirst (locations (handleImportOrders text reply env st)).
Proof.
  intros H.
  destruct (parseOrdersWithGemini text reply) as [orders|e] eqn:Hparse.
  2: { unfold handleImportOrders. by rewrite Hparse. }
  destruct (decide (orders = [])) as [->|Hne].
  { unfold handleImportOrders. by rewrite Hparse. }
  rewrite (handleImportOrders_done _ _ _ _ orders) by done. simpl locations.
  destruct (locations st) as [|l tl].
  - apply importLoop_depotOnlyFirst.
  - unfold depotOnlyFirst in *. simpl in *. apply Forall_app. split; [done|].
    apply importLoop_nonDepot. by left.
Qed.

(** From a start without saved data, only the first stop is ever flagged
    as the depot. *)
Lemma reachable_depotOnlyFirst st :
  reachable st → depotOnlyFirst (locations st).
Proof.
  induction 1 as [|a st _ IH]; [constructor|].
  destruct a; simpl.
  - destruct (Nat.leb_spec 30 (length (locations st))) as [Hfull|Hroom].
    + by rewrite handleMapClick_full.
    + destruct (handleMapClick_adds coords newId st Hroom) as (new & -> & _ & _ & Hd).
      simpl. unfold depotOnlyFirst in *.
      destruct (locations st) as [|l tl]; [constructor|]. simpl in *.
      apply Forall_app. split; [done|]. repeat constructor.
      unfold nonDepot. by rewrite Hd.
  - rewrite handleRemoveLocation_locations. by apply removeLocation_depotOnlyFirst.
  - by rewrite handleCalculateRoute_locations.
  - by apply handleImportOrders_depotOnlyFirst.
  - destruct confirmed; [constructor|done].
  - done.
  - done.
  - done.
Qed.
End Reachable.

(** * Concrete runs *)

(** C1 fails as stated. With depot "a": an answer whose order is b, a, c is
    returned with "a" still second, and an empty order stays empty, so in
    neither case is the first element of the final order the depot id. *)
Lemma order_left_without_depot_first :
  let locs := locations stateABC in
  let reply := GenResponse (Some "r") in
  let run order :=
    optimizeRouteWithGemini
      (route_parser := parsesTo "r" (mkGeminiRouteJson (Some order) (Some [])
                                       (Some sampleStats)))
      locs PICKUP_CLOSED reply noRoads in
  id (depotOf (mkLocation "" "" origin None None None None None None) locs) = "a" ∧
  (∃ r, run ["b"; "a"; "c"] = Ok r ∧
        optimizedOrder r = Some ["b"; "a"; "c"] ∧
        head <$> optimizedOrder r ≠ Some (Some "a")) ∧
  (∃ r, run [] = Ok r ∧
        optimizedOrder r = Some [] ∧
        head <$> optimizedOrder r ≠ Some (Some "a")).
Proof.
  split; [reflexivity|]. split.
  - eexists. split; [vm_compute; reflexivity|]. split; [reflexivity|].
    simpl. discriminate.
  - eexists. split; [vm_compute; reflexivity|]. split; [reflexivity|].
    simpl. discriminate.
Qed.

(** The run of C1 on an answer whose order is b alone, with depot a: the
    final order is a, b. *)
Lemma normalized_order_witness :
  let first := mkLocation "a" DEPOT_NAME origin None (Some true) None None None None in
  let second := mkLocation "b" "B" origin None (Some false) None None None None in
  let raw := mkGeminiRouteJson (Some ["b"]) None (Some sampleStats) in
  ∃ result,
    optimizeRouteWithGemini (route_parser := parsesTo "r" raw)
      [first; second] TRUCK_6W (GenResponse (Some "r")) noRoads = Ok result ∧
    optimizedOrder result = Some ["a"; "b"].
Proof.
  intros first second raw.
  destruct (normalized_order_starts_with_depot (route_parser := parsesTo "r" raw)
              first second [] TRUCK_6W (Some "r") noRoads raw sampleStats
              eq_refl eq_refl)
    as (result & Hres & Habsent & _).
  exists result. split; [exact Hres|].
  apply (Habsent ["b"]); [reflexivity|discriminate|].
  intros H. apply list_elem_of_singleton in H. discriminate H.
Defined.

(** C2 fails on the import path. Depot A and stops B, C have a Route
    Result; an import of one order, geocoded, appends a fourth stop and the
    Route Result of the three stops is still there. *)
Theorem import_keeps_stale_route :
  let st := setOptimizedRoute (Some sampleRoute) stateABC in
  let env := mkImportEnv (λ _, GeocodeData [(13.8%Q, 100.6%Q)]) (λ _, "d") (λ _, (0%Q, 0%Q)) in
  let st' :=
    handleImportOrders (orders_parser := parsesTo "o" [orderFor "Dao" "Siam"])
      "1 order" (GenResponse (Some "o")) env st in
  id <$> locations st = ["a"; "b"; "c"] ∧
  id <$> locations st' = ["a"; "b"; "c"; "d"] ∧
  optimizedRoute st' = Some sampleRoute.
Proof. by vm_compute. Qed.

(** C4 fails on the import path. After thirty map clicks a further click
    is refused with the limit message, but an import of one order brings
    the registry to 31 stops. *)
Theorem import_exceeds_limit :
  let env := mkImportEnv (λ _, GeocodeData [(13.8%Q, 100.6%Q)]) (λ _, "new") (λ _, (0%Q, 0%Q)) in
  let st' :=
    handleImportOrders (orders_parser := parsesTo "o" [orderFor "Dao" "Siam"])
      "1 order" (GenResponse (Some "o")) env state30 in
  length (locations state30) = 30%nat ∧
  handleMapClick origin "click" state30 = setError (Some LIMIT_MESSAGE) state30 ∧
  length (locations st') = 31%nat ∧
  error st' = error state30.
Proof. by vm_compute. Qed.

(** C3, a fault of the import. Two orders are extracted and imported into
    an empty registry; the geocoder matches the first. (1) When it finds
    no match for the second, two stops are appended and the second is the
    placeholder: suffix on the label, zone "Unresolved", a coordinate
    computed from the reference point. (2) When its request for the second
    is rejected (a transport failure), one stop is appended and there is
    no placeholder: the second order is lost. (3) When the request that is
    rejected is the first one, the order that would have become the depot
    is lost, and the one stop appended is not a depot. *)
Theorem rejected_request_loses_order :
  let orders := [orderFor "Dao" "Siam"; orderFor "Ek" "Bang Na"] in
  let run geocode :=
    locations
      (handleImportOrders (orders_parser := parsesTo "o" orders)
         "2 orders" (GenResponse (Some "o"))
         (mkImportEnv geocode show_nat (λ _, ((1 # 2)%Q, (1 # 2)%Q)))
         emptyState) in
  let matched := GeocodeData [(13.75%Q, 100.5%Q)] in
  let answers (failing : nat) (failure : GeocodeReply) :=
    λ i, if (i =? failing)%nat then failure else matched in
  (* (1) no match for the second order *)
  (id <$> run (answers 1%nat (GeocodeData [])) = ["0"; "1"] ∧
   name <$> run (answers 1%nat (GeocodeData []))
   = ["Dao"; "Ek" +:+ UNRESOLVED_SUFFIX] ∧
   zone <$> run (answers 1%nat (GeocodeData []))
   = [Some "Siam"; Some "Unresolved"] ∧
   isDepot <$> run (answers 1%nat (GeocodeData []))
   = [Some true; Some false]) ∧
  (* (2) the request for the second order is rejected *)
  (id <$> run (answers 1%nat GeocodeRejected) = ["0"] ∧
   name <$> run (answers 1%nat GeocodeRejected) = ["Dao"] ∧
   zone <$> run (answers 1%nat GeocodeRejected) = [Some "Siam"]) ∧
  (* (3) the request for the first order is rejected *)
  (id <$> run (answers 0%nat GeocodeRejected) = ["1"] ∧
   name <$> run (answers 0%nat GeocodeRejected) = ["Ek"] ∧
   isDepot <$> run (answers 0%nat GeocodeRejected) = [Some false]).
Proof. by vm_compute. Qed.

(** The fallback coordinate is computed on doubles. With [Math.random()]
    giving 0.25 for the latitude and the largest double below 1 for the
    longitude, the placeholder of an unmatched order is at latitude
    13.758799999999999 and longitude 100.51180000000001, the latter
    beyond the reference longitude plus 0.01. *)
Lemma fallback_coordinate_is_rounded :
  let env :=
    mkImportEnv (λ _, GeocodeData []) show_nat
                (λ _, ((1 # 4)%Q,
                       (4503599627370495 # 4503599627370496)%Q)) in
  let stop := unresolvedStop env false 0 (orderFor "Ek" "Bang Na") in
  coordinates stop
  = mkCoordinates (7745515819133147 # 562949953421312)
                  (7072889141036529 # 70368744177664) ∧
  (lat (coordinates stop) < FALLBACK_LAT + JITTER)%Q ∧
  (FALLBACK_LNG + JITTER < lng (coordinates stop))%Q.
Proof. by vm_compute. Qed.



(** The run of C6 on depot A and the stop named "Alice": after the
    removal of A the registry is Alice alone, flagged and labeled as the
    depot. *)
Lemma depot_removal_witness :
  let st := setLocations depotAndAlice emptyState in
  ∃ p rest p' rest',
    kept "a" (locations st) = p :: rest ∧
    locations (handleRemoveLocation "a" st) = p' :: rest' ∧
    p' = withName DEPOT_NAME (withIsDepot (Some true) p) ∧
    rest' = imap (λ i, renumber (S i)) rest ∧
    sameFrame p p' ∧
    name p' = DEPOT_NAME ∧
    isDepot p' = Some true ∧
    Forall nonDepot rest'.
Proof.
  intros st.
  apply (depot_removal_promotes "a" st
           (mkLocation "a" DEPOT_NAME origin None (Some true) None None
                       (Some "HQ") None)).
  - by repeat constructor.
  - apply elem_of_cons. by left.
  - reflexivity.
  - reflexivity.
  - by vm_compute.
Defined.

(** C7 fails as stated. A usable answer with two legs, the first without a
    steps array and the second with one step: the steps returned are that
    one translated step; no arrival step is among them, where L - 1 = 1. *)
Lemma leg_without_steps_gets_no_arrival :
  let turn := mkOsrmStep (mkManeuver "turn" (Some "left")) (Some "Main Rd") 120 15 in
  let legs := [mkOsrmLeg None; mkOsrmLeg (Some [turn])] in
  let fetch : string → list Coordinates → OsrmReply :=
    λ _ _, HttpResponse true (Some (mkOsrmData "Ok" [mkOsrmRoute [] (Some legs)])) in
  length legs = 2%nat ∧
  steps (fetchRouteData fetch (locations stateABC)) = legSteps [turn] ∧
  ∀ k, arrivalStep k ∉ steps (fetchRouteData fetch (locations stateABC)).
Proof.
  intros turn legs fetch. split; [done|]. split; [by vm_compute|].
  intros k Hk. vm_compute in Hk. apply list_elem_of_singleton in Hk.
  discriminate Hk.
Qed.

(** The run of C7 on an answer of the second mirror with three legs, the
    second of them without a steps array: one arrival step, after the
    first leg. *)
Lemma flattened_steps_witness :
  let turn := mkOsrmStep (mkManeuver "turn" (Some "left")) (Some "Main Rd") 120 15 in
  let leave := mkOsrmStep (mkManeuver "depart" None) None 40 5 in
  let legs := [mkOsrmLeg (Some [leave; turn]); mkOsrmLeg None;
               mkOsrmLeg (Some [turn])] in
  let fetch : string → list Coordinates → OsrmReply :=
    λ u _, if String.eqb u "https://router.project-osrm.org/route/v1/driving"
           then HttpResponse false None
           else HttpResponse true (Some (mkOsrmData "Ok" [mkOsrmRoute [] (Some legs)])) in
  steps (fetchRouteData fetch (locations stateABC))
  = legSteps [leave; turn] ++ arrivalStep 0 :: legSteps [turn].
Proof.
  intros turn leave legs fetch.
  destruct (flattened_steps fetch (locations stateABC)
              ["https://router.project-osrm.org/route/v1/driving"]
              "https://routing.openstreetmap.de/routed-car/route/v1/driving" []
              (mkOsrmRoute [] (Some legs)) legs) as [Hsteps _].
  - reflexivity.
  - by repeat constructor.
  - reflexivity.
  - reflexivity.
  - exact Hsteps.
Defined.

(** The run of C8 on three stops with a stored Route Result: a rejected
    model call, then a good answer while every mirror is down. *)
Lemma calculate_failures_witness :
  let st := setOptimizedRoute (Some sampleRoute) stateABC in
  let parser : JsonParse GeminiRouteJson :=
    parsesTo "r" (mkGeminiRouteJson (Some ["a"; "c"; "b"]) None (Some sampleStats)) in
  (optimizedRoute
     (handleCalculateRoute (route_parser := parser)
        (GenRejected (Error "quota exceeded")) noRoads st)
   = Some sampleRoute ∧
   error
     (handleCalculateRoute (route_parser := parser)
        (GenRejected (Error "quota exceeded")) noRoads st)
   = Some (CALCULATE_FAILED +:+ "quota exceeded")) ∧
  ∃ r,
    optimizedRoute
      (handleCalculateRoute (route_parser := parser)
         (GenResponse (Some "r")) noRoads st) = Some r ∧
    optimizedOrder r = Some ["a"; "c"; "b"] ∧
    pathPolyline r = Some [] ∧ navigationInstructions r = Some [].
Proof.
  intros st parser.
  assert (2 ≤ length (locations st))%nat as Hlen by (vm_compute; lia).
  destruct (calculate_failures (route_parser := parser) st noRoads Hlen)
    as (Hthrow & Hrej & _ & _ & _ & Hroads).
  split.
  - destruct (Hthrow _ _ (Hrej (Error "quota exceeded"))) as (Hroute & _ & Herr).
    split; [exact Hroute|exact Herr].
  - destruct (Hroads (Some "r")
                (mkGeminiRouteJson (Some ["a"; "c"; "b"]) None (Some sampleStats))
                sampleStats eq_refl eq_refl (λ _ _, eq_refl))
      as (r & Hr & Hstored & _ & _ & Hpath).
    exists r. split; [exact Hstored|].
    assert (optimizedOrder r = Some ["a"; "c"; "b"]) as Hord.
    { revert Hr. vm_compute. by intros [= <-]. }
    split; [exact Hord|]. apply (Hpath _ Hord). vm_compute. lia.
Defined.

(** The run of C9 on a truncated record. *)
Lemma invalid_saved_data_witness :
  let parser : JsonParse SavedJson := parsesTo "{}" (SavedValue None None) in
  JSON_parse (JsonParse := parser) "{locations:" = Throw (Error "Unexpected token") ∧
  initialState (saved_parser := parser) (Ok (Some "{locations:"))
  = initialState (saved_parser := parser) (Ok None) ∧
  locations (initialState (saved_parser := parser) (Ok None)) = [] ∧
  optimizedRoute (initialState (saved_parser := parser) (Ok None)) = None.
Proof.
  intros parser. split; [reflexivity|].
  apply (invalid_saved_data_is_no_data (saved_parser := parser)
           "{locations:" (Error "Unexpected token")).
  reflexivity.
Defined.

(** The run of C10 on depot A and the stops B and C, removing B: C is
    left second, with its fields and its flag as before and the label of
    position 1. *)
Lemma removal_frame_witness :
  let new := withName (STOP_PREFIX +:+ " " +:+ show_nat 1) stopC in
  kept "b" (locations stateABC) !! 1%nat = Some stopC ∧
  locations (handleRemoveLocation "b" stateABC) !! 1%nat = Some new ∧
  sameFrame stopC new ∧
  (isDepot new ≠ isDepot stopC →
   1%nat = 0%nat ∧ isDepot new = Some true ∧
   removesFirst "b" (locations stateABC) = true) ∧
  (name new = name stopC ∨
   (1%nat = 0%nat ∧ removesFirst "b" (locations stateABC) = true ∧
    name new = DEPOT_NAME) ∨
   (nonDepot new ∧ String.prefix STOP_PREFIX (name stopC) = true ∧
    name new = STOP_PREFIX +:+ " " +:+ show_nat 1)).
Proof.
  intros new. split; [reflexivity|]. split; [reflexivity|].
  apply (proj2 (removal_frame "b" stateABC) 1%nat stopC new); reflexivity.
Defined.

(** * Further properties of the registry *)

Lemma clickAll_snoc clicks c st :
  clickAll (clicks ++ [c]) st = handleMapClick c.1 c.2 (clickAll clicks st).
Proof. unfold clickAll. by rewrite foldl_app. Qed.

Lemma clickedStop_new coords newId st :
  (length (locations st) < 30)%nat →
  locations (handleMapClick coords newId st)
  = locations st ++ [clickedStop (length (locations st)) (coords, newId)].
Proof.
  intros H. unfold handleMapClick.
  by destruct (Nat.leb_spec 30 (length (locations st))) as [|_]; [lia|].
Qed.

(** Map clicks on an empty registry: the first thirty clicks each add a
    stop, in order, the first one as the depot with the depot label and
    the [i]-th as stop number [i]; every later click adds nothing. *)
Theorem map_clicks_from_empty (clicks : list (Coordinates * string)) :
  locations (clickAll clicks emptyState) = imap clickedStop (take 30 clicks).
Proof.
  induction clicks as [|c clicks IH] using rev_ind; [done|].
  rewrite clickAll_snoc.
  assert (length (locations (clickAll clicks emptyState))
          = length (take 30 clicks)) as Hlen by (by rewrite IH, length_imap).
  rewrite length_take in Hlen.
  destruct (Nat.lt_ge_cases (length clicks) 30) as [Hroom|Hfull].
  - rewrite clickedStop_new by lia. rewrite Hlen, IH.
    replace (30 `min` length clicks)%nat with (length clicks) by lia.
    rewrite !take_ge by (rewrite ?length_app; simpl; lia).
    rewrite imap_app. cbn [imap]. by rewrite Nat.add_0_r.
  - rewrite handleMapClick_full by lia. simpl. rewrite IH.
    by rewrite take_app_le by lia.
Qed.

Lemma removeLocation_ids_kept rid locs :
  id <$> removeLocation rid locs = id <$> kept rid locs.
Proof.
  apply list_eq. intros i. rewrite !list_lookup_fmap.
  destruct (kept rid locs !! i) as [old|] eqn:Hold.
  - destruct (lookup_lt_is_Some_2 (removeLocation rid locs) i) as [new Hnew].
    { rewrite removeLocation_length. by eapply lookup_lt_Some. }
    rewrite Hnew. simpl. f_equal.
    rewrite removeLocation_lookup in Hnew.
    destruct (promoteFirst rid locs (kept rid locs) !! i) as [mid|] eqn:Hmid;
      [|done].
    injection Hnew as <-.
    destruct (renumber_frame i mid) as [(Hid & _) _]. rewrite Hid.
    destruct i as [|i].
    + destruct (kept rid locs) as [|n0 rest], locs as [|l0 ?]; simpl in *;
        try congruence.
      destruct (String.eqb (id l0) rid); simpl in *;
        injection Hmid as <-; by injection Hold as <-.
    + rewrite promoteFirst_tail in Hmid. congruence.
  - assert (removeLocation rid locs !! i = None) as ->; [|done].
    apply lookup_ge_None. rewrite removeLocation_length.
    by apply lookup_ge_None.
Qed.

Lemma kept_ids rid locs :
  id <$> kept rid locs = filter (λ i, i ≠ rid) (id <$> locs).
Proof.
  unfold kept. induction locs as [|l locs IH]; [done|].
  rewrite fmap_cons, !filter_cons. repeat case_decide; try done.
  rewrite fmap_cons. by f_equal.
Qed.

(** The ids after a removal are the ids before it without the removed id,
    in the same order: nothing else is dropped, added or moved. *)
Theorem removal_ids (rid : string) (st : AppState) :
  id <$> locations (handleRemoveLocation rid st)
  = filter (λ i, i ≠ rid) (id <$> locations st).
Proof.
  by rewrite handleRemoveLocation_locations, removeLocation_ids_kept, kept_ids.
Qed.

Lemma prefix_app (p s : string) : String.prefix p (p +:+ s) = true.
Proof.
  induction p as [|a p IH]; simpl; [by destruct s|].
  by destruct (ascii_dec a a).
Qed.

Lemma renumber_twice idx loc : renumber idx (renumber idx loc) = renumber idx loc.
Proof.
  destruct (truthy (isDepot loc)) eqn:Hd.
  - by rewrite !(renumber_depot idx loc Hd).
  - rewrite (renumber_other idx loc Hd).
    destruct (String.prefix STOP_PREFIX (name loc)) eqn:Hp.
    + rewrite renumber_other by exact Hd. cbn [name withName].
      by rewrite prefix_app.
    + rewrite renumber_other by exact Hd. by rewrite Hp.
Qed.

Lemma kept_all rid locs :
  Forall (λ l, id l ≠ rid) locs → kept rid locs = locs.
Proof.
  induction 1 as [|l locs Hl _ IH]; [done|].
  rewrite kept_cons, IH. by destruct (String.eqb_spec (id l) rid).
Qed.

Lemma removeLocation_gone rid locs :
  Forall (λ l, id l ≠ rid) (removeLocation rid locs).
Proof.
  apply Forall_forall. intros l Hl.
  assert (id l ∈ id <$> removeLocation rid locs) as Hin
    by (by apply list_elem_of_fmap_2).
  rewrite removeLocation_ids_kept in Hin.
  apply list_elem_of_fmap in Hin as (k & -> & Hk).
  unfold kept in Hk. by apply list_elem_of_filter in Hk as [? _].
Qed.

(** Removing the same id a second time changes nothing: neither the stops
    nor their labels. *)
Theorem removal_idempotent (rid : string) (locs : list DeliveryLocation) :
  removeLocation rid (removeLocation rid locs) = removeLocation rid locs.
Proof.
  pose proof (removeLocation_gone rid locs) as Hgone.
  set (R := removeLocation rid locs) in *.
  unfold removeLocation at 1. fold (kept rid R). rewrite (kept_all rid R Hgone).
  rewrite promoteFirst_keep.
  2: { destruct R as [|l ?]; [done|]. simpl. apply Forall_cons in Hgone as [Hl _].
       by apply String.eqb_neq. }
  apply list_eq. intros i. rewrite list_lookup_imap.
  subst R. rewrite removeLocation_lookup.
  destruct (promoteFirst rid locs (kept rid locs) !! i); simpl; [|done].
  by rewrite renumber_twice.
Qed.

(** ** Invariants over runs *)

Lemma removeLocation_shorter rid locs :
  (length (removeLocation rid locs) ≤ length locs)%nat.
Proof. rewrite removeLocation_length. apply length_filter. Qed.

Lemma removeLocation_startsWithDepot rid locs :
  startsWithDepot locs → startsWithDepot (removeLocation rid locs).
Proof.
  destruct locs as [|l tl]; [done|]. intros [Hd Hn].
  unfold removeLocation. fold (kept rid (l :: tl)). rewrite kept_cons.
  destruct (String.eqb (id l) rid) eqn:Hrm.
  - destruct (kept rid tl) as [|p rest]; [done|].
    rewrite promoteFirst_head by done. rewrite imap_cons.
    by rewrite renumber_depot.
  - rewrite promoteFirst_keep by done. rewrite imap_cons.
    rewrite renumber_depot by (by rewrite Hd). done.
Qed.

Lemma handleMapClick_startsWithDepot coords newId st :
  startsWithDepot (locations st) →
  startsWithDepot (locations (handleMapClick coords newId st)).
Proof.
  intros H. destruct (Nat.leb_spec 30 (length (locations st))) as [Hfull|Hroom].
  - by rewrite handleMapClick_full.
  - rewrite clickedStop_new by done.
    by destruct (locations st) as [|l tl].
Qed.

Section RunInvariants.
Context {route_parser : JsonParse GeminiRouteJson}.
Context {orders_parser : JsonParse (list ParsedOrder)}.
Context {saved_parser : JsonParse SavedJson}.

Lemma run_cons a actions st : run (a :: actions) st = run actions (step a st).
Proof. done. Qed.

Lemma step_depotOnlyFirst a st :
  depotOnlyFirst (locations st) → depotOnlyFirst (locations (step a st)).
Proof.
  intros IH. destruct a; simpl; try done.
  - destruct (Nat.leb_spec 30 (length (locations st))) as [Hfull|Hroom].
    + by rewrite handleMapClick_full.
    + destruct (handleMapClick_adds coords newId st Hroom) as (new & -> & _ & _ & Hd).
      simpl. unfold depotOnlyFirst in *.
      destruct (locations st) as [|l tl]; [constructor|]. simpl in *.
      apply Forall_app. split; [done|]. repeat constructor.
      unfold nonDepot. by rewrite Hd.
  - rewrite handleRemoveLocation_locations. by apply removeLocation_depotOnlyFirst.
  - by rewrite handleCalculateRoute_locations.
  - by apply handleImportOrders_depotOnlyFirst.
  - destruct confirmed; [constructor|done].
Qed.

Lemma run_depotOnlyFirst actions st :
  depotOnlyFirst (locations st) → depotOnlyFirst (locations (run actions st)).
Proof.
  revert st. induction actions as [|a actions IH]; intros st H; [done|].
  rewrite run_cons. by apply IH, step_depotOnlyFirst.
Qed.

Lemma reachable_run actions st : reachable st → reachable (run actions st).
Proof.
  revert st. induction actions as [|a actions IH]; intros st H; [done|].
  rewrite run_cons. apply IH. by constructor.
Qed.

Lemma handleCalculateRoute_selectedId reply fetch st :
  selectedId (handleCalculateRoute reply fetch st) = selectedId st.
Proof.
  unfold handleCalculateRoute.
  destruct (length (locations st) <? 2)%nat; [done|].
  by destruct (optimizeRouteWithGemini _ _ _ _).
Qed.

(** What an import leaves alone, whatever its outcome: the stops that were
    there stay first and in order, and selection, vehicle and Route Result
    are as before. *)
Lemma handleImportOrders_frame text reply env st :
  ∃ new,
    locations (handleImportOrders text reply env st) = locations st ++ new ∧
    (∃ orders, new = importLoop env (length (locations st) =? 0)%nat 0 orders []) ∧
    selectedId (handleImportOrders text reply env st) = selectedId st ∧
    vehicleType (handleImportOrders text reply env st) = vehicleType st.
Proof.
  destruct (parseOrdersWithGemini text reply) as [orders|e] eqn:Hparse.
  - destruct (decide (orders = [])) as [->|Hne].
    + exists []. unfold handleImportOrders. rewrite Hparse. simpl.
      rewrite app_nil_r. repeat split; try done. by exists [].
    + rewrite (handleImportOrders_done _ _ _ _ orders) by done.
      eexists. repeat split; try done. by exists orders.
  - exists []. unfold handleImportOrders. rewrite Hparse. simpl.
    rewrite app_nil_r. repeat split; try done. by exists [].
Qed.

(** Without imports the limit holds: map clicks, removals, resets and
    route calculations never take a registry of at most 30 stops beyond
    30. *)
Theorem limit_without_import (actions : list Action) (st : AppState) :
  Forall (λ a, isImport a = false) actions →
  (length (locations st) ≤ 30)%nat →
  (length (locations (run actions st)) ≤ 30)%nat.
Proof.
  intros Hacts. revert st. induction Hacts as [|a actions Ha _ IH]; intros st Hlen;
    [done|].
  rewrite run_cons. apply IH. destruct a; simpl; try done.
  - by apply handleMapClick_limit.
  - rewrite handleRemoveLocation_locations.
    pose proof (removeLocation_shorter rid (locations st)). lia.
  - by rewrite handleCalculateRoute_locations.
  - destruct confirmed; simpl; [lia|done].
Qed.

(** Without imports, from the empty registry: as long as there is a stop,
    the first stop is the depot and carries the depot label, and no other
    stop is flagged as depot. *)
Theorem depot_first_without_import (actions : list Action) :
  Forall (λ a, isImport a = false) actions →
  match locations (run actions emptyState) with
  | [] => True
  | d :: rest =>
      isDepot d = Some true ∧ name d = DEPOT_NAME ∧ Forall nonDepot rest
  end.
Proof.
  intros Hacts.
  assert (startsWithDepot (locations (run actions emptyState))) as Hstart.
  { assert (startsWithDepot (locations emptyState)) as H0 by done.
    revert H0. generalize emptyState.
    induction Hacts as [|a actions Ha _ IH]; intros st Hst; [done|].
    rewrite run_cons. apply IH. destruct a; simpl; try done.
    - by apply handleMapClick_startsWithDepot.
    - rewrite handleRemoveLocation_locations.
      by apply removeLocation_startsWithDepot.
    - by rewrite handleCalculateRoute_locations.
    - by destruct confirmed. }
  assert (depotOnlyFirst (locations (run actions emptyState))) as Honly
    by (apply run_depotOnlyFirst; constructor).
  destruct (locations (run actions emptyState)) as [|d rest]; [done|].
  destruct Hstart as [Hd Hn]. by repeat split.
Qed.

(** In every state reached from a start without saved data, imports
    included, a stop flagged as depot is the first stop. *)
Theorem depot_flag_only_first (st : AppState) (i : nat) (l : DeliveryLocation) :
  reachable st →
  locations st !! i = Some l →
  truthy (isDepot l) = true →
  i = 0%nat.
Proof.
  intros Hreach Hl Hd. apply reachable_depotOnlyFirst in Hreach.
  destruct i as [|i]; [done|]. exfalso.
  unfold depotOnlyFirst in Hreach. rewrite Forall_lookup in Hreach.
  destruct (locations st) as [|l0 tl]; [done|]. simpl in *.
  specialize (Hreach i l Hl). unfold nonDepot in Hreach. congruence.
Qed.

(** The selection stays valid: when the selected id is the id of a stop
    (or nothing is selected), it still is after any handler the views
    offer. A removal clears the selection when the removed stop is the
    selected one and leaves it alone otherwise; a map click on a registry
    of fewer than 30 stops appends one stop, with the generated id, and
    selects it. *)
Theorem selection_stays_valid (a : Action) (st : AppState) :
  selectionValid st → offered a st →
  selectionValid (step a st) ∧
  (∀ rid, a = RemoveLocation rid →
     selectedId (step a st)
     = if decide (selectedId st = Some rid) then None else selectedId st) ∧
  (∀ coords newId, a = MapClick coords newId →
     (length (locations st) < 30)%nat →
     selectedId (step a st) = Some newId ∧
     ∃ new, locations (step a st) = locations st ++ [new] ∧ id new = newId).
Proof.
  intros Hsel Hoff. split; [|split].
  2: { intros rid ->. simpl. unfold handleRemoveLocation.
       destruct (selectedId st) as [sel|] eqn:Hsel0.
       - destruct (String.eqb_spec sel rid) as [->|Hne]; case_decide;
           simpl; congruence.
       - case_decide; [done|]. simpl. congruence. }
  2: { intros coords newId -> Hroom. simpl.
       destruct (handleMapClick_adds coords newId st Hroom)
         as (new & -> & Hid & _).
       split; [done|]. by exists new. }
  revert Hsel Hoff.
  intros Hsel Hoff s. destruct a; simpl.
  - destruct (Nat.leb_spec 30 (length (locations st))) as [Hfull|Hroom].
    + rewrite handleMapClick_full by done. apply Hsel.
    + destruct (handleMapClick_adds coords newId st Hroom) as (new & -> & Hid & _).
      simpl. intros [= <-]. rewrite fmap_app. apply elem_of_app. right.
      simpl. rewrite Hid. apply list_elem_of_singleton. done.
  - rewrite handleRemoveLocation_locations, removeLocation_ids_kept, kept_ids.
    intros Hs. apply list_elem_of_filter.
    unfold handleRemoveLocation in Hs.
    destruct (selectedId st) as [sel|] eqn:Hsel0; [|simpl in Hs; congruence].
    destruct (String.eqb_spec sel rid) as [|Hne]; [done|].
    simpl in Hs. rewrite Hsel0 in Hs. injection Hs as <-.
    split; [done|]. by apply Hsel.
  - rewrite handleCalculateRoute_selectedId, handleCalculateRoute_locations.
    apply Hsel.
  - destruct (handleImportOrders_frame text generateContent env st)
      as (new & -> & _ & -> & _).
    intros Hs. rewrite fmap_app. apply elem_of_app. left. by apply Hsel.
  - destruct confirmed; [done|apply Hsel].
  - destruct sel as [s'|]; [|done]. simpl. by intros [= <-].
  - apply Hsel.
  - apply Hsel.
Qed.
End RunInvariants.

(** ** Further properties of the import *)

Lemma importLoop_ids env isFirst orders : ∀ i,
  id <$> importLoop env isFirst i orders []
  = generateId env <$> filter (λ j, settled (geocode env j) = true)
                              (seq i (length orders)).
Proof.
  induction orders as [|o rest IH]; intros i; [done|].
  rewrite importLoop_cons, fmap_app, IH. cbn [length seq].
  rewrite filter_cons. unfold pushedFor.
  destruct (geocode env i) as [|[|hit hits]]; simpl; try case_decide; done.
Qed.

Lemma importLoop_count env isFirst orders i :
  length (importLoop env isFirst i orders [])
  = length (filter (λ j, settled (geocode env j) = true) (seq i (length orders))).
Proof.
  by rewrite <- (length_fmap id), importLoop_ids, length_fmap.
Qed.

Section ImportOutcomes.
Context {route_parser : JsonParse GeminiRouteJson}.
Context {orders_parser : JsonParse (list ParsedOrder)}.

Lemma import_appends_settled_aux text reply env st orders :
  parseOrdersWithGemini text reply = Ok orders →
  ∃ new,
    locations (handleImportOrders text reply env st) = locations st ++ new ∧
    id <$> new
    = generateId env <$> filter (λ j, settled (geocode env j) = true)
                                (seq 0 (length orders)).
Proof.
  intros Hparse. destruct (decide (orders = [])) as [->|Hne].
  - exists []. unfold handleImportOrders. rewrite Hparse. simpl.
    by rewrite app_nil_r.
  - rewrite (handleImportOrders_done _ _ _ _ orders) by done.
    eexists. split; [done|]. apply importLoop_ids.
Qed.

(** An import that extracts orders appends one stop for each order whose
    geocoding request was answered, after the stops that were there; the
    orders whose request was rejected are left out. *)
Theorem import_appends_settled (text : string) (reply : GenerateContentReply)
    (env : ImportEnv) (st : AppState) (orders : list ParsedOrder) :
  parseOrdersWithGemini text reply = Ok orders →
  ∃ new,
    locations (handleImportOrders text reply env st) = locations st ++ new ∧
    length new
    = length (filter (λ j, settled (geocode env j) = true)
                     (seq 0 (length orders))) ∧
    id <$> new
    = generateId env <$> filter (λ j, settled (geocode env j) = true)
                                (seq 0 (length orders)).
Proof.
  intros Hparse. destruct (decide (orders = [])) as [->|Hne].
  - exists []. unfold handleImportOrders. rewrite Hparse. simpl.
    by rewrite app_nil_r.
  - rewrite (handleImportOrders_done _ _ _ _ orders) by done.
    eexists. split; [done|]. split; [apply importLoop_count|apply importLoop_ids].
Qed.

(** An import is abandoned, with the registry and the Route Result as they
    were, the wait message taken down and the failure shown, when the model
    call rejects, when its text does not parse, and when it parses to no
    order at all. *)
Theorem import_abandoned (text : string) (reply : GenerateContentReply)
    (env : ImportEnv) (st : AppState) (e : JsError) :
  reply = GenRejected e ∨
  (∃ answer, reply = GenResponse answer ∧
             JSON_parse (T:=list ParsedOrder) (str_or answer "[]") = Throw e) ∨
  (∃ answer, reply = GenResponse answer ∧
             JSON_parse (T:=list ParsedOrder) (str_or answer "[]") = Ok [] ∧
             e = NO_ORDERS) →
  handleImportOrders text reply env st
  = mkState (locations st) (optimizedRoute st) (vehicleType st) (isCalculating st)
            None (selectedId st) (Some (IMPORT_FAILED +:+ message e)).
Proof.
  intros [->|[(answer & -> & Hparse)|(answer & -> & Hparse & ->)]];
    unfold handleImportOrders, parseOrdersWithGemini;
    cbn [await_generateContent mbind result_bind]; [done|by rewrite Hparse..].
Qed.

(** An import in which every geocoding request finds a match appends one
    stop per order, in order, at the coordinates of the first hit, with the
    order's address, customer, phone and zone, named after the customer;
    it is the depot only for the first order of an import into an empty
    registry. *)
Theorem import_all_matched (text : string) (reply : GenerateContentReply)
    (env : ImportEnv) (st : AppState) (orders : list ParsedOrder)
    (hits : nat → Q * Q) :
  parseOrdersWithGemini text reply = Ok orders →
  (∀ i, (i < length orders)%nat →
        ∃ more, geocode env i = GeocodeData (hits i :: more)) →
  locations (handleImportOrders text reply env st)
  = locations st
    ++ imap (λ i o,
         mkLocation (generateId env i)
           (str_or (order_customerName o) ("จุดส่ง " +:+ show_nat (i + 1)))
           (mkCoordinates (hits i).1 (hits i).2)
           (order_address o)
           (Some ((length (locations st) =? 0)%nat && (i =? 0)%nat))
           (order_customerName o) (order_phoneNumber o) (order_zone o) None)
         orders.
Proof.
  intros Hparse Hhits. destruct (decide (orders = [])) as [->|Hne].
  { unfold handleImportOrders. rewrite Hparse. simpl. by rewrite app_nil_r. }
  rewrite (handleImportOrders_done _ _ _ _ orders) by done. simpl. f_equal.
  set (isFirst := (length (locations st) =? 0)%nat).
  destruct (importLoop_settled env isFirst orders 0) as [Hlen Hlook].
  { intros j Hj. simpl. destruct (Hhits j Hj) as [more ->]. done. }
  apply list_eq. intros i. rewrite list_lookup_imap.
  destruct (orders !! i) as [o|] eqn:Ho.
  - rewrite (Hlook i o Ho). simpl. unfold pushedFor.
    destruct (Hhits i) as [more ->]; [by eapply lookup_lt_Some|]. done.
  - apply lookup_ge_None. rewrite Hlen. by apply lookup_ge_None.
Qed.

(** After an import into an empty registry, some stop is the depot exactly
    when the geocoding request of the first order was answered: a rejected
    first request leaves a registry without any depot. *)
Theorem import_depot_iff_first_settled (text : string)
    (reply : GenerateContentReply) (env : ImportEnv) (st : AppState)
    (orders : list ParsedOrder) :
  locations st = [] →
  parseOrdersWithGemini text reply = Ok orders →
  orders ≠ [] →
  Exists (λ l, truthy (isDepot l) = true)
         (locations (handleImportOrders text reply env st))
  ↔ settled (geocode env 0) = true.
Proof.
  intros Hempty Hparse Hne.
  rewrite (handleImportOrders_done _ _ _ _ orders) by done. simpl.
  rewrite Hempty. simpl. destruct orders as [|o rest]; [done|].
  rewrite importLoop_cons.
  pose proof (importLoop_nonDepot env true rest 1 (or_intror (Nat.neq_succ_0 0)))
    as Hrest.
  rewrite Exists_app. unfold pushedFor.
  destruct (geocode env 0) as [|[|hit hits]]; simpl.
  - split; [|done]. intros [H|H]; [by apply Exists_nil in H|].
    apply Exists_exists in H as (l & Hl & Hd).
    rewrite Forall_forall in Hrest. specialize (Hrest l Hl).
    unfold nonDepot in Hrest. congruence.
  - split; [done|]. intros _. left. by constructor.
  - split; [done|]. intros _. left. by constructor.
Qed.
End ImportOutcomes.

Section UniqueIds.
Context {route_parser : JsonParse GeminiRouteJson}.
Context {orders_parser : JsonParse (list ParsedOrder)}.

(** Ids stay unique: when no two stops share an id and [generateId] gives
    new ids, no two stops share an id after any handler. *)
Theorem ids_stay_unique (a : Action) (st : AppState) :
  NoDup (id <$> locations st) →
  freshIds a st →
  NoDup (id <$> locations (step a st)).
Proof.
  intros Hnd Hfresh. destruct a; simpl in *; try done.
  - destruct (Nat.leb_spec 30 (length (locations st))) as [Hfull|Hroom].
    + by rewrite handleMapClick_full.
    + rewrite clickedStop_new by done. rewrite fmap_app. simpl.
      apply NoDup_app. split; [done|]. split.
      * intros x Hx ->%list_elem_of_singleton. done.
      * apply NoDup_singleton.
  - rewrite handleRemoveLocation_locations, removeLocation_ids_kept, kept_ids.
    by apply NoDup_filter.
  - by rewrite handleCalculateRoute_locations.
  - destruct Hfresh as [Hnew Hinj].
    destruct (parseOrdersWithGemini text generateContent) as [orders|e] eqn:Hparse.
    2: { unfold handleImportOrders. by rewrite Hparse. }
    destruct (import_appends_settled_aux text generateContent env st orders Hparse)
      as (new & -> & Hids).
    rewrite fmap_app, Hids. apply NoDup_app. split; [done|]. split.
    + intros x Hx (j & -> & _)%list_elem_of_fmap. by apply (Hnew j).
    + apply NoDup_fmap_2; [exact Hinj|]. apply NoDup_filter, NoDup_seq.
  - destruct confirmed; [constructor|done].
Qed.
End UniqueIds.

(** ** Further properties of the route service *)

(** The final order keeps every returned id in its place: it is the
    returned order, or the returned order after the depot id. A returned
    order that is not empty always ends up containing the depot id, and
    normalizing a second time changes nothing. *)
Theorem normalized_order_keeps_ids (depotId : string) (order : list string) :
  ∃ final,
    normalizeOrder depotId (Some order) = Some final ∧
    (final = order ∨ final = depotId :: order) ∧
    (order ≠ [] → depotId ∈ final) ∧
    normalizeOrder depotId (Some final) = Some final.
Proof.
  destruct order as [|first rest].
  { exists []. by repeat split; [left|..]. }
  destruct (decide (first = depotId)) as [->|Hne].
  { exists (depotId :: rest). rewrite normalizeOrder_first.
    repeat split; [by left|intros _; apply elem_of_cons; by left]. }
  destruct (includes depotId (first :: rest)) eqn:Hin.
  - exists (first :: rest).
    assert (depotId ∈ rest) as Hrest.
    { apply includes_elem_of, elem_of_cons in Hin as [->|?]; done. }
    rewrite normalizeOrder_elsewhere by done.
    repeat split; [by left|intros _; apply elem_of_cons; by right].
  - exists (depotId :: first :: rest).
    assert (depotId ∉ first :: rest) as Hnot.
    { intros H%includes_elem_of. congruence. }
    rewrite normalizeOrder_absent by done. rewrite normalizeOrder_first.
    repeat split; [by right|intros _; apply elem_of_cons; by left].
Qed.

Lemma translated_not_marker (s : OsrmStep) :
  Forall (λ n, isArrivalMarker n = false) (legSteps [s]).
Proof.
  repeat constructor. unfold isArrivalMarker. cbn [maneuver instruction].
  destruct (String.eqb_spec (maneuver_type (step_maneuver s)) "arrive") as [->|];
    [|done].
  reflexivity.
Qed.

Lemma legSteps_no_marker (ss : list OsrmStep) :
  filter (λ n, isArrivalMarker n = true) (legSteps ss) = [].
Proof.
  induction ss as [|s ss IH]; [done|].
  change (legSteps (s :: ss)) with (legSteps [s] ++ legSteps ss).
  rewrite filter_app, IH, app_nil_r. simpl. rewrite filter_cons.
  pose proof (translated_not_marker s) as H. apply Forall_cons in H as [H _].
  case_decide; [congruence|done].
Qed.

Lemma arrivalStep_marker (k : nat) : isArrivalMarker (arrivalStep k) = true.
Proof. unfold isArrivalMarker, arrivalStep. simpl. apply prefix_app. Qed.

Lemma forEachLeg_markers (n : nat) (legs : list OsrmLeg) : ∀ i acc,
  n = (i + length legs)%nat →
  length (filter (λ s, isArrivalMarker s = true) (forEachLeg n i legs acc))
  = (length (filter (λ s, isArrivalMarker s = true) acc)
     + length (filter (λ leg, hasSteps leg = true) (removelast legs)))%nat.
Proof.
  induction legs as [|leg rest IH]; intros i acc Hn; [simpl; lia|].
  cbn [forEachLeg]. rewrite IH by (simpl in Hn; lia).
  unfold forEachLeg_body.
  assert (hasSteps leg = match leg_steps leg with Some _ => true | None => false end)
    as Hh by done.
  destruct rest as [|leg' rest'].
  - simpl in Hn. cbn [removelast filter list_filter].
    destruct (leg_steps leg) as [ss|]; [|simpl; lia].
    replace (Z.of_nat i <? Z.of_nat n - 1)%Z with false
      by (symmetry; apply Z.ltb_ge; lia).
    rewrite filter_app, legSteps_no_marker, app_nil_r. simpl. lia.
  - change (removelast (leg :: leg' :: rest'))
      with (leg :: removelast (leg' :: rest')).
    simpl in Hn. destruct (leg_steps leg) as [ss|].
    + rewrite filter_cons_True by done.
      replace (Z.of_nat i <? Z.of_nat n - 1)%Z with true
        by (symmetry; apply Z.ltb_lt; lia).
      rewrite !filter_app, legSteps_no_marker, app_nil_r.
      rewrite filter_cons_True by apply arrivalStep_marker.
      rewrite filter_nil, length_app. simpl. lia.
    + rewrite filter_cons_False by (rewrite Hh; done). lia.
Qed.

(** The arrival steps among the steps of a route, whatever its legs: one
    for each leg that carries a steps array and is not the last leg.  A
    translated turn step is never taken for one. *)
Theorem arrival_markers_counted (route : OsrmRoute) (legs : list OsrmLeg) :
  route_legs route = Some legs →
  length (filter (λ s, isArrivalMarker s = true) (routeSteps route))
  = length (filter (λ leg, hasSteps leg = true) (removelast legs)).
Proof.
  intros Hlegs. unfold routeSteps. rewrite Hlegs.
  by rewrite (forEachLeg_markers _ legs 0 []).
Qed.

(** The first mirror with a usable answer decides the result: geometry and
    steps are those of its first route, each point of the geometry with
    latitude and longitude taken from the second and first number of the
    pair, and what any later mirror would answer plays no part. *)
Theorem first_usable_mirror_wins (fetch : string → list Coordinates → OsrmReply)
    (locs : list DeliveryLocation) (failed : list string) (url : string)
    (rest : list string) (route : OsrmRoute) :
  OSRM_SERVERS = failed ++ url :: rest →
  Forall (λ u, usableRoute (fetch u (coordinates <$> locs)) = None) failed →
  usableRoute (fetch url (coordinates <$> locs)) = Some route →
  fetchRouteData fetch locs
  = {| geometry := (λ c, mkCoordinates c.2 c.1) <$> route_geometry route;
       steps := routeSteps route |}.
Proof.
  intros Hservers Hfailed Hok. unfold fetchRouteData. rewrite Hservers.
  change (map coordinates locs) with (coordinates <$> locs).
  by rewrite (tryServers_first_usable _ _ _ _ _ route).
Qed.

(** In a registry where only the first stop can be flagged as depot, the
    depot the optimizer starts from is the first stop, flagged or not. *)
Theorem optimizer_depot_is_first (first : DeliveryLocation)
    (rest : list DeliveryLocation) :
  depotOnlyFirst (first :: rest) →
  depotOf first (first :: rest) = first.
Proof.
  unfold depotOnlyFirst, depotOf. simpl. intros Hrest.
  destruct (truthy (isDepot first)); [done|].
  assert (List.find (λ l, truthy (isDepot l)) rest = None) as ->; [|done].
  induction Hrest as [|l ls Hl _ IH]; [done|]. simpl.
  unfold nonDepot in Hl. by rewrite Hl.
Qed.

Section ServiceOutcomes.
Context {route_parser : JsonParse GeminiRouteJson}.

Lemma optimize_Ok_inv locs vt reply fetch r :
  optimizeRouteWithGemini locs vt reply fetch = Ok r →
  ∃ first second more text raw st0,
    locs = first :: second :: more ∧ reply = GenResponse text ∧
    JSON_parse (str_or text "{}") = Ok raw ∧ json_stats raw = Some st0.
Proof.
  intros Hok. destruct locs as [|first [|second more]]; try done.
  destruct reply as [e|text]; [done|].
  unfold optimizeRouteWithGemini in Hok.
  cbn [await_generateContent mbind result_bind] in Hok.
  destruct (JSON_parse (str_or text "{}")) as [raw|e] eqn:Hparse; [|done].
  cbn [mbind result_bind] in Hok.
  destruct (json_stats raw) as [st0|] eqn:Hstats; [|done].
  by exists first, second, more, text, raw, st0.
Qed.

(** Every result the optimizer returns carries the vehicle profile that
    was asked for, and road geometry and steps together or not at all:
    both are there exactly when at least two ids of the final order are ids
    of stops. *)
Theorem optimize_result_shape (locs : list DeliveryLocation) (vt : VehicleType)
    (reply : GenerateContentReply)
    (fetch : string → list Coordinates → OsrmReply)
    (r : RouteOptimizationResult) :
  optimizeRouteWithGemini locs vt reply fetch = Ok r →
  stats_vehicleType (stats r) = Some (VehicleType_value vt) ∧
  (is_Some (pathPolyline r) ↔ is_Some (navigationInstructions r)) ∧
  (is_Some (pathPolyline r) ↔
   (1 < length (omap (findById locs) (default [] (optimizedOrder r))))%nat).
Proof.
  intros Hok.
  destruct (optimize_Ok_inv _ _ _ _ _ Hok)
    as (first & second & more & text & raw & st0 & -> & -> & Hparse & Hstats).
  destruct (optimize_ok first second more vt text raw st0 fetch Hparse Hstats)
    as (r' & Hr' & _ & _ & Hst & Hpath).
  rewrite Hok in Hr'. injection Hr' as <-.
  split; [by rewrite Hst|].
  destruct (optimizedOrder r) as [ids|] eqn:Hids; simpl.
  - specialize (Hpath ids eq_refl).
    destruct (Nat.ltb_spec 1 (length (omap (findById (first :: second :: more)) ids)))
      as [Hlt|Hge]; destruct Hpath as [-> ->].
    + by repeat split.
    + split; [split; by intros [? ?]|]. split; [by intros [? ?]|lia].
  - unfold optimizeRouteWithGemini in Hok.
    cbn [await_generateContent mbind result_bind] in Hok. rewrite Hparse in Hok.
    cbn [mbind result_bind] in Hok. rewrite Hstats in Hok.
    cbn [mbind result_bind] in Hok. injection Hok as <-. simpl in Hids.
    rewrite Hids. simpl.
    split; [split; by intros [? ?]|]. split; [by intros [? ?]|lia].
Qed.

(** With fewer than two stops nothing is asked of the model: the service
    throws its own error whatever the replies would be, and the handler
    returns at once, the state untouched. *)
Theorem too_few_stops (st : AppState) (vt : VehicleType)
    (reply : GenerateContentReply)
    (fetch : string → list Coordinates → OsrmReply) :
  (length (locations st) < 2)%nat →
  optimizeRouteWithGemini (locations st) vt reply fetch = Throw TOO_FEW_STOPS ∧
  handleCalculateRoute reply fetch st = st.
Proof.
  intros Hlen. split.
  - destruct (locations st) as [|? [|? ?]]; simpl in Hlen; (done || lia).
  - unfold handleCalculateRoute.
    by destruct (Nat.ltb_spec (length (locations st)) 2) as [_|]; [|lia].
Qed.
End ServiceOutcomes.

(** ** Further properties of the start-up *)

Section Restore.
Context {saved_parser : JsonParse SavedJson}.

(** Saved data that parses is restored: the stops and the Route Result of
    the record become the first state, a record without stops gives the
    empty registry, and the record [null] gives the state of no saved
    data. *)
Theorem saved_data_restored (s : string)
    (locs : option (list DeliveryLocation))
    (route : option RouteOptimizationResult) :
  s ≠ "" →
  (JSON_parse s = Ok (SavedValue locs route) →
   initialState (Ok (Some s))
   = mkState (default [] locs) route PICKUP_CLOSED false None None None) ∧
  (JSON_parse s = Ok SavedNull →
   initialState (Ok (Some s)) = initialState (Ok None)).
Proof.
  intros Hs. apply String.eqb_neq in Hs.
  unfold initialState, initLocations, initOptimizedRoute.
  cbn [mbind result_bind]. rewrite Hs.
  split; intros ->; reflexivity.
Qed.
End Restore.

(** ** Properties of the views *)

Lemma findById_Some locs i l :
  findById locs i = Some l → id l = i ∧ l ∈ locs.
Proof.
  unfold findById. intros [Hin Heq]%find_some.
  split; [by apply String.eqb_eq|by apply list_elem_of_In].
Qed.

Lemma findById_None locs i :
  findById locs i = None ↔ i ∉ id <$> locs.
Proof.
  unfold findById. split.
  - intros Hnone (l & -> & Hl)%list_elem_of_fmap.
    apply list_elem_of_In in Hl.
    pose proof (find_none _ _ Hnone l Hl) as H. simpl in H.
    by rewrite String.eqb_refl in H.
  - intros Hnot. destruct (List.find _ locs) as [l|] eqn:Hfind; [|done].
    exfalso. apply find_some in Hfind as [Hin Heq%String.eqb_eq].
    apply Hnot. subst i. apply list_elem_of_fmap_2. by apply list_elem_of_In.
Qed.

Lemma resolved_ids (locs : list DeliveryLocation) (order : list string) :
  id <$> omap (findById locs) order = filter (λ i, i ∈ id <$> locs) order.
Proof.
  induction order as [|i order IH]; [done|].
  cbn [omap list_omap]. rewrite filter_cons.
  destruct (findById locs i) as [l|] eqn:Hfind.
  - destruct (findById_Some _ _ _ Hfind) as [<- Hl].
    rewrite decide_True by (by apply list_elem_of_fmap_2).
    rewrite fmap_cons. by f_equal.
  - apply findById_None in Hfind. by rewrite decide_False.
Qed.

(** With an optimized order, the sidebar lists and the map connects the
    stops whose ids the order names, in the order's sequence (as often as
    it names them); an id that is not the id of a stop is dropped, and
    nothing but stops of the registry is shown. *)
Theorem views_follow_order (locs : list DeliveryLocation) (order : list string) :
  order ≠ [] →
  id <$> displayedLocations locs order = filter (λ i, i ∈ id <$> locs) order ∧
  Forall (λ l, l ∈ locs) (displayedLocations locs order) ∧
  straightLinePositions locs order
  = (λ l, (lat (coordinates l), lng (coordinates l)))
      <$> displayedLocations locs order.
Proof.
  intros Hne. unfold displayedLocations, straightLinePositions.
  destruct order as [|i order]; [done|]. cbn [length Nat.ltb Nat.leb].
  split; [apply resolved_ids|]. split; [|done].
  apply Forall_forall. intros l (j & Hj & Hfind)%list_elem_of_omap.
  by apply findById_Some in Hfind as [_ ?].
Qed.

Lemma findIndexById_own locs i loc :
  NoDup (id <$> locs) → locs !! i = Some loc →
  findIndexById (id loc) locs = Z.of_nat i.
Proof.
  intros Hnd Hloc. unfold findIndexById.
  destruct (list_find (λ l, id l = id loc) locs) as [[k l']|] eqn:Hfind.
  - apply list_find_Some in Hfind as (Hk & Hid & _). f_equal.
    eapply NoDup_lookup; [exact Hnd| |].
    + by rewrite list_lookup_fmap, Hk.
    + rewrite list_lookup_fmap, Hloc. simpl. by rewrite Hid.
  - apply list_find_None in Hfind. rewrite Forall_forall in Hfind.
    exfalso. apply (Hfind loc); [|done]. by eapply list_elem_of_lookup_2.
Qed.

(** Without an optimized order and with ids that are unique, the number on
    a stop's marker and in its list entry is the stop's position in the
    registry. *)
Theorem labels_are_positions (locs : list DeliveryLocation) (i : nat)
    (loc : DeliveryLocation) :
  NoDup (id <$> locs) →
  locs !! i = Some loc →
  markerLabelIndex locs [] loc = Z.of_nat i ∧
  listLabelIndex locs [] loc = Z.of_nat i.
Proof.
  intros Hnd Hloc. unfold markerLabelIndex, listLabelIndex. simpl.
  rewrite (findIndexById_own locs i loc Hnd Hloc).
  split; [|done]. by destruct (Z.eqb_spec (Z.of_nat i) (-1)); [lia|].
Qed.

Section ViewsAfterCalculation.
Context {route_parser : JsonParse GeminiRouteJson}.

(** When the model's answer is well formed and no mirror gives a usable
    route, the map still draws the route: the straight path through the
    stops in the final order. *)
Theorem road_failure_draws_straight_path (st : AppState) (text : option string)
    (raw : GeminiRouteJson) (stats0 : OptimizedRouteStats)
    (fetch : string → list Coordinates → OsrmReply) (first : DeliveryLocation) :
  (2 ≤ length (locations st))%nat →
  head (locations st) = Some first →
  JSON_parse (str_or text "{}") = Ok raw →
  json_stats raw = Some stats0 →
  (∀ u coords, usableRoute (fetch u coords) = None) →
  let st' := handleCalculateRoute (GenResponse text) fetch st in
  let final :=
    default [] (normalizeOrder (id (depotOf first (locations st)))
                               (json_optimizedOrder raw)) in
  props_optimizedOrder st' = final ∧
  displayPositions (locations st') (props_optimizedOrder st')
                   (props_routePolyline st')
  = straightLinePositions (locations st) final.
Proof.
  intros Hlen Hfirst Hparse Hstats Hfail st' final.
  destruct (locations st) as [|first' [|second more]] eqn:Hlocs;
    simpl in Hlen; try lia.
  injection Hfirst as ->.
  destruct (optimize_ok first second more (vehicleType st) text raw stats0
              fetch Hparse Hstats) as (r & Hr & Hord & _ & _ & Hpath).
  assert (st' = setIsCalculating false
            (setOptimizedRoute (Some r) (setError None (setIsCalculating true st))))
    as Hst'.
  { subst st'. apply handleCalculateRoute_ok; rewrite Hlocs; [simpl; lia|done]. }
  assert (props_optimizedOrder st' = final) as Hprops.
  { rewrite Hst'. unfold props_optimizedOrder. simpl. by rewrite Hord. }
  split; [done|]. rewrite Hprops.
  assert (locations st' = locations st) as -> by (by rewrite Hst').
  rewrite Hlocs. unfold displayPositions.
  assert (props_routePolyline st' = pathPolyline r) as -> by (by rewrite Hst').
  destruct (optimizedOrder r) as [ids|] eqn:Hids.
  - specialize (Hpath ids eq_refl).
    destruct (1 <? length (omap (findById (first :: second :: more)) ids))%nat.
    + destruct Hpath as [-> _]. unfold fetchRouteData.
      rewrite tryServers_all_fail; [done|].
      apply Forall_forall. intros u _. apply Hfail.
    + by destruct Hpath as [-> _].
  - assert (pathPolyline r = None) as ->; [|done].
    unfold optimizeRouteWithGemini in Hr.
    cbn [await_generateContent mbind result_bind] in Hr. rewrite Hparse in Hr.
    cbn [mbind result_bind] in Hr. rewrite Hstats in Hr.
    cbn [mbind result_bind] in Hr. injection Hr as <-. simpl in Hids.
    simpl. by rewrite Hids.
Qed.
End ViewsAfterCalculation.

Lemma strip_blank c l :
  asciiBlank c → strip_any white_space (c :: l) = Some l.
Proof.
  unfold asciiBlank, bytes. cbn [map].
  rewrite !elem_of_cons, elem_of_nil.
  intros [->|[->|[->|[->|[->|[->|[]]]]]]]; reflexivity.
Qed.

Lemma trim_front_blank l : ∀ fuel,
  (length l ≤ fuel)%nat → Forall asciiBlank l →
  trim_front fuel white_space l = [].
Proof.
  induction l as [|c l IH]; intros fuel Hfuel Hblank.
  - by destruct fuel.
  - destruct fuel as [|fuel]; [simpl in Hfuel; lia|].
    apply Forall_cons in Hblank as [Hc Hl].
    cbn [trim_front]. rewrite strip_blank by done.
    apply IH; [simpl in Hfuel; lia|done].
Qed.

(** A text of nothing but spaces, tabs and line breaks (or no text at all)
    is not submitted: the dialog stays as it is and no import is started. *)
Theorem blank_text_not_submitted (d : ImportDialog) :
  Forall asciiBlank (list_ascii_of_string (importText d)) →
  handleImportSubmit d = (d, None).
Proof.
  intros Hblank. unfold handleImportSubmit.
  assert (js_trim (importText d) = "") as ->; [|done].
  unfold js_trim. by rewrite trim_front_blank.
Qed.

(** ** Properties of the grouping of the list *)

Lemma getOwn_None {A} (key : string) (o : JsObject A) :
  getOwn key o = None ↔ key ∉ o.*1.
Proof.
  induction o as [|[k v] o IH]; simpl.
  - split; [intros _; apply not_elem_of_nil|done].
  - destruct (String.eqb_spec k key) as [->|Hne].
    + split; [done|]. intros H. exfalso. apply H, elem_of_cons. by left.
    + rewrite IH, not_elem_of_cons. split; [by intros ?|by intros [_ ?]].
Qed.

Lemma setOwn_new {A} (key : string) (v : A) (o : JsObject A) :
  getOwn key o = None → setOwn key v o = o ++ [(key, v)].
Proof.
  induction o as [|[k x] o IH]; simpl; [done|].
  destruct (String.eqb k key); [done|]. intros H. by rewrite IH.
Qed.

Lemma setOwn_old {A} (key : string) (v x : A) (o : JsObject A) :
  getOwn key o = Some x →
  ∃ pre post, o = pre ++ (key, x) :: post ∧
              setOwn key v o = pre ++ (key, v) :: post.
Proof.
  induction o as [|[k y] o IH]; simpl; [done|].
  destruct (String.eqb_spec k key) as [->|Hne].
  - intros [= ->]. by exists [], o.
  - intros H. destruct (IH H) as (pre & post & -> & ->).
    by exists ((k, y) :: pre), post.
Qed.

Lemma concat_perm {A} (l k : list (list A)) : l ≡ₚ k → concat l ≡ₚ concat k.
Proof.
  induction 1 as [|x l k _ IH|x y l|l k m _ IH1 _ IH2]; simpl.
  - done.
  - by rewrite IH.
  - rewrite !app_assoc. f_equiv. apply Permutation_app_comm.
  - by rewrite IH1.
Qed.

Lemma elem_of_concat {A} (x : A) (ls : list (list A)) :
  x ∈ concat ls → ∃ l, x ∈ l ∧ l ∈ ls.
Proof.
  intros H%list_elem_of_In%in_concat. destruct H as (l & Hl & Hx).
  exists l. split; by apply list_elem_of_In.
Qed.

Lemma groupsOf_perm seen groups groups' :
  groups ≡ₚ groups' → groupsOf seen groups → groupsOf seen groups'.
Proof.
  intros Hp (Hnd & Hall & Hcat). unfold groupsOf. split; [by rewrite <- Hp|].
  split; [by rewrite <- Hp|].
  rewrite <- Hcat. apply concat_perm. by rewrite Hp.
Qed.

Lemma groupInto_groupsOf seen groups loc :
  groupsOf seen groups →
  inherited (zoneOf loc) = false →
  ∃ groups', groupInto groups loc = Ok groups' ∧ groupsOf (seen ++ [loc]) groups'.
Proof.
  intros (Hnd & Hall & Hcat) Hinh. unfold groupInto.
  destruct (getOwn (zoneOf loc) groups) as [ls|] eqn:Hget.
  - destruct (setOwn_old (zoneOf loc) (ls ++ [loc]) ls groups Hget)
      as (pre & post & -> & ->).
    eexists. split; [done|]. unfold groupsOf.
    rewrite !fmap_app, !fmap_cons in *. simpl in *.
    apply Forall_app in Hall as [Hpre Hmid]. apply Forall_cons in Hmid as [Hls Hpost].
    destruct Hls as (_ & Hzone & Hsub). simpl in *.
    split; [done|]. split.
    + apply Forall_app. split; [|apply Forall_cons; split].
      * eapply Forall_impl; [exact Hpre|]. intros kv (? & ? & ?).
        repeat split; try done. by apply sublist_inserts_r.
      * simpl. split; [by destruct ls|]. split.
        -- apply Forall_app. split; [done|]. by repeat constructor.
        -- by apply sublist_app.
      * eapply Forall_impl; [exact Hpost|]. intros kv (? & ? & ?).
        repeat split; try done. by apply sublist_inserts_r.
    + rewrite <- Hcat. rewrite !concat_app. simpl. rewrite <- !app_assoc.
      do 2 f_equiv. apply Permutation_app_comm.
  - rewrite Hinh. rewrite setOwn_new by done. eexists. split; [done|].
    apply getOwn_None in Hget. unfold groupsOf.
    rewrite !fmap_app. simpl. split.
    + apply NoDup_app. split; [done|]. split; [|apply NoDup_singleton].
      intros x Hx ->%list_elem_of_singleton. done.
    + split.
      * apply Forall_app. split.
        -- eapply Forall_impl; [exact Hall|]. intros kv (? & ? & ?).
           repeat split; try done. by apply sublist_inserts_r.
        -- repeat constructor; simpl; [done|]. by apply sublist_inserts_l.
      * rewrite concat_app. simpl. by rewrite Hcat.
Qed.

Lemma forEachGroup_groupsOf locs : ∀ seen groups,
  groupsOf seen groups →
  Forall (λ l, inherited (zoneOf l) = false) locs →
  ∃ groups', forEachGroup locs groups = Ok groups' ∧
             groupsOf (seen ++ locs) groups'.
Proof.
  induction locs as [|loc locs IH]; intros seen groups Hg Hall.
  - exists groups. by rewrite app_nil_r.
  - apply Forall_cons in Hall as [Hloc Hall].
    destruct (groupInto_groupsOf seen groups loc Hg Hloc) as (g1 & Hg1 & Hinv).
    destruct (IH _ _ Hinv Hall) as (g2 & Hg2 & Hinv2).
    exists g2. simpl. rewrite Hg1. simpl. split; [done|].
    by rewrite cons_middle, app_assoc.
Qed.

Lemma index_split {A} (o : JsObject A) :
  filter (λ kv, isIndexKey kv = true) o ++ filter (λ kv, isIndexKey kv = false) o
  ≡ₚ o.
Proof.
  induction o as [|kv o IH]; [done|].
  rewrite !filter_cons. destruct (isIndexKey kv) eqn:Hk.
  - rewrite decide_True, decide_False by done. simpl. by rewrite IH.
  - rewrite decide_False, decide_True by done.
    rewrite <- Permutation_middle. by rewrite IH.
Qed.

Lemma ownEntries_perm {A} (o : JsObject A) : ownEntries o ≡ₚ o.
Proof. unfold ownEntries. rewrite merge_sort_Permutation. apply index_split. Qed.

Lemma ownEntries_no_index {A} (o : JsObject A) :
  Forall (λ kv, isIndexKey kv = false) o → ownEntries o = o.
Proof.
  intros H. unfold ownEntries.
  assert (filter (λ kv, isIndexKey kv = true) o = []) as ->.
  { induction H as [|kv o Hkv _ IH]; [done|].
    rewrite filter_cons_False by congruence. done. }
  assert (filter (λ kv, isIndexKey kv = false) o = o) as ->; [|done].
  induction H as [|kv o Hkv _ IH]; [done|].
  rewrite filter_cons_True by done. by rewrite IH.
Qed.

Lemma foldl_setOwn {A} (l : list (string * A)) : ∀ acc,
  NoDup (acc ++ l).*1 →
  foldl (λ acc kv, setOwn kv.1 kv.2 acc) acc l = acc ++ l.
Proof.
  induction l as [|[k v] l IH]; intros acc Hnd; simpl.
  - by rewrite app_nil_r.
  - rewrite setOwn_new.
    + rewrite IH; [by rewrite <- app_assoc|]. by rewrite <- app_assoc.
    + apply getOwn_None. rewrite fmap_app in Hnd.
      apply NoDup_app in Hnd as (_ & Hdis & _). intros Hk.
      apply (Hdis k Hk). simpl. apply elem_of_cons. by left.
Qed.

Lemma spread_disjoint {A} (a b : JsObject A) :
  NoDup (a ++ b).*1 → spread a b = ownEntries a ++ ownEntries b.
Proof.
  intros Hnd. unfold spread. rewrite foldl_setOwn; [done|]. simpl.
  by rewrite !ownEntries_perm.
Qed.

Lemma deleteOwn_absent {A} (key : string) (o : JsObject A) :
  key ∉ o.*1 → deleteOwn key o = o.
Proof.
  unfold deleteOwn. induction o as [|[k v] o IH]; [done|].
  rewrite fmap_cons, not_elem_of_cons. simpl. intros [Hne Hnot].
  rewrite filter_cons_True by (simpl; congruence). by rewrite IH.
Qed.

Lemma getOwn_delete {A} (key : string) (x : A) (o : JsObject A) :
  NoDup o.*1 → getOwn key o = Some x → (key, x) :: deleteOwn key o ≡ₚ o.
Proof.
  induction o as [|[k v] o IH]; simpl; [done|].
  intros [Hk Hnd]%NoDup_cons.
  destruct (String.eqb_spec k key) as [->|Hne].
  - intros [= ->]. unfold deleteOwn. rewrite filter_cons_False by (simpl; tauto).
    fold (deleteOwn key o). by rewrite deleteOwn_absent.
  - intros Hget. unfold deleteOwn. rewrite filter_cons_True by done.
    fold (deleteOwn key o). rewrite Permutation_swap. by rewrite IH.
Qed.

Lemma groupedLocations_groupsOf locs :
  Forall (λ l, inherited (zoneOf l) = false) locs →
  ∃ groups o,
    forEachGroup locs [] = Ok groups ∧ groupsOf locs groups ∧
    groupedLocations locs [] = Ok o ∧
    o = match getOwn DEPOT_ZONE groups with
        | Some dg => ownEntries [(DEPOT_ZONE, dg)]
                     ++ ownEntries (deleteOwn DEPOT_ZONE groups)
        | None => ownEntries groups
        end ∧
    o ≡ₚ groups.
Proof.
  intros Hall.
  destruct (forEachGroup_groupsOf locs [] []) as (groups & Hrun & Hinv);
    [by repeat split; constructor|done|].
  simpl in Hinv. exists groups.
  unfold groupedLocations, displayedLocations. simpl. rewrite Hrun. simpl.
  destruct Hinv as (Hnd & Hrest).
  destruct (getOwn DEPOT_ZONE groups) as [dg|] eqn:Hget.
  - pose proof (getOwn_delete DEPOT_ZONE dg groups Hnd Hget) as Hperm.
    eexists. split; [done|]. split; [done|]. split; [done|].
    rewrite spread_disjoint by (change ([(DEPOT_ZONE, dg)] ++ ?l)
      with ((DEPOT_ZONE, dg) :: l); by rewrite Hperm).
    split; [done|]. rewrite !ownEntries_perm. exact Hperm.
  - eexists. split; [done|]. split; [done|]. split; [done|].
    rewrite spread_disjoint by done. split; [done|].
    simpl. by rewrite ownEntries_perm.
Qed.

Lemma groups_partition_aux locs :
  Forall (λ l, inherited (zoneOf l) = false) locs →
  ∃ groups, shownGroups locs [] = Ok groups.
Proof.
  intros Hall.
  destruct (groupedLocations_groupsOf locs Hall) as (_ & o & _ & _ & Ho & _).
  exists (ownEntries o). unfold shownGroups. by rewrite Ho.
Qed.

(** Without an optimized order, and when no zone is named like a property
    of [Object.prototype], the list is grouped by zone: the groups shown
    have distinct names, each holds at least one stop and only stops of its
    zone, in registry order, and every stop is in the groups once. *)
Theorem groups_partition_the_stops (locs : list DeliveryLocation) :
  Forall (λ l, inherited (zoneOf l) = false) locs →
  ∃ groups,
    shownGroups locs [] = Ok groups ∧
    NoDup groups.*1 ∧
    Forall (λ kv, kv.2 ≠ [] ∧ Forall (λ l, zoneOf l = kv.1) kv.2 ∧
                  kv.2 `sublist_of` locs) groups ∧
    concat groups.*2 ≡ₚ locs.
Proof.
  intros Hall.
  destruct (groupedLocations_groupsOf locs Hall)
    as (groups & o & _ & Hinv & Ho & _ & Hperm).
  exists (ownEntries o). unfold shownGroups. rewrite Ho. simpl.
  split; [done|]. apply (groupsOf_perm locs groups); [|done].
  by rewrite ownEntries_perm, Hperm.
Qed.

Lemma setOwn_keys {A} (Q : string → Prop) (key : string) (v : A) (o : JsObject A) :
  Forall (λ kv, Q kv.1) o → Q key → Forall (λ kv, Q kv.1) (setOwn key v o).
Proof.
  intros Ho Hk. induction Ho as [|[k x] o Hkx Ho IH]; simpl.
  - by repeat constructor.
  - destruct (String.eqb k key); by constructor.
Qed.

Lemma forEachGroup_throws locs : ∀ groups,
  Forall (λ kv, inherited kv.1 = false) groups →
  Exists (λ l, inherited (zoneOf l) = true) locs →
  forEachGroup locs groups = Throw TYPE_ERROR_PUSH.
Proof.
  induction locs as [|loc locs IH]; intros groups Hkeys Hex.
  - by apply Exists_nil in Hex.
  - simpl. unfold groupInto.
    destruct (inherited (zoneOf loc)) eqn:Hinh.
    + assert (getOwn (zoneOf loc) groups = None) as ->; [|done].
      apply getOwn_None. intros (kv & Hkv & Hin)%list_elem_of_fmap.
      rewrite Forall_forall in Hkeys. specialize (Hkeys kv Hin). congruence.
    + apply Exists_cons in Hex as [Hex|Hex]; [congruence|].
      destruct (getOwn (zoneOf loc) groups) as [ls|]; simpl;
        apply IH; try done;
        by apply (setOwn_keys (λ k, inherited k = false)).
Qed.

(** Without an optimized order, the grouping throws, and with it the
    rendering of the list, exactly when the zone of some stop is named like
    a property of [Object.prototype]. *)
Theorem inherited_zone_breaks_the_list (locs : list DeliveryLocation) :
  shownGroups locs [] = Throw TYPE_ERROR_PUSH
  ↔ Exists (λ l, inherited (zoneOf l) = true) locs.
Proof.
  split.
  - intros Hthrow.
    destruct (decide (Exists (λ l, inherited (zoneOf l) = true) locs))
      as [|Hno]; [done|]. exfalso.
    apply not_Exists_Forall in Hno; [|apply _].
    destruct (groups_partition_aux locs) as (groups & Hok).
    { eapply Forall_impl; [exact Hno|]. simpl. intros l Hl.
      by destruct (inherited (zoneOf l)). }
    congruence.
  - intros Hex. unfold shownGroups, groupedLocations, displayedLocations. simpl.
    by rewrite forEachGroup_throws.
Qed.

(** When no zone is an array index (nor named like a property of
    [Object.prototype]) and some stop falls in the depot zone, that is, it
    is a depot without a zone of its own or its zone is so named, the
    depot group is shown first, followed by the other groups in the order
    in which the loop created them. *)
Theorem depot_group_first (locs : list DeliveryLocation) :
  Forall (λ l, inherited (zoneOf l) = false) locs →
  Forall (λ l, arrayIndex (zoneOf l) = None) locs →
  Exists (λ l, zoneOf l = DEPOT_ZONE) locs →
  ∃ groups depotGroup,
    forEachGroup locs [] = Ok groups ∧
    getOwn DEPOT_ZONE groups = Some depotGroup ∧
    shownGroups locs []
    = Ok ((DEPOT_ZONE, depotGroup) :: deleteOwn DEPOT_ZONE groups).
Proof.
  intros Hall Hidx Hex.
  destruct (groupedLocations_groupsOf locs Hall)
    as (groups & o & Hrun & (Hnd & Hgroups & Hcat) & Ho & Hshape & Hperm).
  assert (Forall (λ kv : string * list DeliveryLocation, isIndexKey kv = false)
                 groups) as Hnoidx.
  { eapply Forall_impl; [exact Hgroups|]. intros [k ls] (Hne & Hzone & Hsub).
    simpl in *. destruct ls as [|l ls]; [done|].
    apply Forall_cons in Hzone as [<- _].
    assert (l ∈ locs) as Hl.
    { eapply elem_of_sublist; [|exact Hsub]. apply elem_of_cons. by left. }
    rewrite Forall_forall in Hidx. unfold isIndexKey. simpl.
    by rewrite (Hidx l Hl). }
  assert (∃ dg, getOwn DEPOT_ZONE groups = Some dg) as [dg Hget].
  { destruct (getOwn DEPOT_ZONE groups) as [dg|] eqn:Hget; [by eexists|].
    exfalso. apply getOwn_None in Hget. apply Hget.
    apply Exists_exists in Hex as (l & Hl & Hz).
    rewrite <- Hcat in Hl. apply elem_of_concat in Hl as (ls & Hin & Hls).
    apply list_elem_of_fmap in Hls as ([k ls'] & -> & Hkv). simpl in *.
    rewrite Forall_forall in Hgroups.
    destruct (Hgroups _ Hkv) as (_ & Hzone & _). simpl in Hzone.
    rewrite Forall_forall in Hzone. rewrite <- Hz, (Hzone l Hin).
    by apply (list_elem_of_fmap_2 fst _ (k, ls')). }
  exists groups, dg. split; [done|]. split; [done|].
  unfold shownGroups. rewrite Ho. simpl. f_equal. rewrite Hshape, Hget.
  assert (Forall (λ kv : string * list DeliveryLocation, isIndexKey kv = false)
                 (deleteOwn DEPOT_ZONE groups)) as Hnoidx'.
  { unfold deleteOwn. apply Forall_forall.
    intros kv [_ Hkv]%list_elem_of_filter. rewrite Forall_forall in Hnoidx.
    by apply Hnoidx. }
  rewrite (ownEntries_no_index [(DEPOT_ZONE, dg)]) by (by repeat constructor).
  rewrite (ownEntries_no_index (deleteOwn _ _)) by done.
  apply ownEntries_no_index. by constructor.
Qed.

Lemma indexOf_elem (x : string) (l : list string) :
  x ∈ l →
  ∃ k, indexOf x l = Z.of_nat k ∧ l !! k = Some x ∧
       ∀ j, (j < k)%nat → l !! j ≠ Some x.
Proof.
  intros Hx. unfold indexOf.
  destruct (list_find (λ y, y = x) l) as [[k y]|] eqn:Hfind.
  - apply list_find_Some in Hfind as (Hk & -> & Hbefore).
    exists k. split; [done|]. split; [done|].
    intros j Hj Hjx. by apply (Hbefore j x Hjx Hj).
  - apply list_find_None in Hfind. rewrite Forall_forall in Hfind.
    by destruct (Hfind x Hx).
Qed.

(** The leg shown under a stop of the optimized order is one of the
    segments, it starts at that stop, and it ends at the id that follows
    the stop's first place in the order. *)
Theorem segment_shown_is_next_leg (order : list string)
    (segs : list RouteSegment) (loc : DeliveryLocation) (s : RouteSegment) :
  id loc ∈ order →
  segmentInfo order (Some segs) loc = Some s →
  s ∈ segs ∧ fromId s = id loc ∧
  ∃ k, order !! k = Some (id loc) ∧
       (∀ j, (j < k)%nat → order !! j ≠ Some (id loc)) ∧
       order !! S k = Some (toId s).
Proof.
  intros Hin Hseg. unfold segmentInfo in Hseg.
  destruct (indexOf_elem _ _ Hin) as (k & Hidx & Hk & Hfirst).
  destruct order as [|o order]; [by apply elem_of_nil in Hin|].
  cbn [length Nat.ltb Nat.leb] in Hseg. rewrite Hidx in Hseg.
  destruct (Z.ltb_spec (Z.of_nat k + 1) 0) as [|_]; [lia|].
  replace (Z.to_nat (Z.of_nat k + 1)) with (S k) in Hseg by lia.
  destruct ((o :: order) !! S k) as [next|] eqn:Hnext; [|done].
  destruct (String.eqb next ""); [done|].
  apply find_some in Hseg as [Hs Heq].
  apply andb_true_iff in Heq as [Hfrom%String.eqb_eq Hto%String.eqb_eq].
  split; [by apply list_elem_of_In|]. split; [done|].
  exists k. by rewrite Hto.
Qed.

(** * Runs of the further properties *)

(** Thirty stops, then a click, a removal and a reset: never more than 30. *)
Lemma limit_without_import_run :
  (length (locations
     (run (route_parser := routeHost) (orders_parser := ordersHost)
        [MapClick origin "z"; RemoveLocation "0"; MapClick origin "y"]
        state30)) ≤ 30)%nat.
Proof.
  apply (limit_without_import (route_parser := routeHost)
           (orders_parser := ordersHost)).
  - by repeat constructor.
  - vm_compute. lia.
Defined.

(** Two clicks, then the depot is removed: the stop left is the depot. *)
Lemma depot_first_run :
  match locations
          (run (route_parser := routeHost) (orders_parser := ordersHost)
             [MapClick origin "a"; MapClick origin "b"; RemoveLocation "a"]
             emptyState) with
  | [] => True
  | d :: rest =>
      isDepot d = Some true ∧ name d = DEPOT_NAME ∧ Forall nonDepot rest
  end.
Proof.
  apply (depot_first_without_import (route_parser := routeHost)
           (orders_parser := ordersHost)
           [MapClick origin "a"; MapClick origin "b"; RemoveLocation "a"]).
  by repeat constructor.
Defined.

(** An import into the empty registry, all orders matched: only the first
    stop is flagged. *)
Lemma depot_flag_run :
  let st :=
    step (route_parser := routeHost) (orders_parser := ordersHost)
      (ImportOrders "2 orders" (GenResponse (Some "o")) allMatched)
      (initialState (saved_parser := savedHost) (Ok None)) in
  length (locations st) = 2%nat ∧
  ∀ i l, locations st !! i = Some l → truthy (isDepot l) = true → i = 0%nat.
Proof.
  intros st. split; [by vm_compute|]. intros i l.
  apply (depot_flag_only_first (route_parser := routeHost)
           (orders_parser := ordersHost) (saved_parser := savedHost) st i l).
  apply reachable_step, reachable_init.
Defined.

(** With C selected, C is removed: nothing is selected afterwards. *)
Lemma selection_run :
  let st' :=
    step (route_parser := routeHost) (orders_parser := ordersHost)
         (RemoveLocation "c") stateABC in
  selectedId stateABC = Some "c" ∧
  selectionValid st' ∧
  selectedId st' = None.
Proof.
  destruct (selection_stays_valid (route_parser := routeHost)
              (orders_parser := ordersHost) (RemoveLocation "c") stateABC)
    as (Hvalid & Hremoved & _).
  - intros s [= <-]. vm_compute. by repeat constructor.
  - exact I.
  - split; [reflexivity|]. split; [exact Hvalid|].
    exact (Hremoved "c" eq_refl).
Defined.

(** A click with a new id on A, B, C. *)
Lemma unique_ids_run :
  NoDup (id <$> locations
           (step (route_parser := routeHost) (orders_parser := ordersHost)
              (MapClick origin "d") stateABC)).
Proof.
  apply (ids_stay_unique (route_parser := routeHost)
           (orders_parser := ordersHost) (MapClick origin "d") stateABC).
  - apply (bool_decide_unpack _). by vm_compute.
  - apply (bool_decide_unpack _). by vm_compute.
Defined.

(** Two orders, the request of the first rejected: one stop is appended,
    the one of the second order. *)
Lemma import_appends_run :
  ∃ new,
    locations
      (handleImportOrders (orders_parser := ordersHost) "2 orders"
         (GenResponse (Some "o")) firstRejected stateABC)
    = locations stateABC ++ new ∧
    length new
    = length (filter (λ j, settled (geocode firstRejected j) = true)
                     (seq 0 (length sampleOrders))) ∧
    id <$> new
    = generateId firstRejected
        <$> filter (λ j, settled (geocode firstRejected j) = true)
                   (seq 0 (length sampleOrders)).
Proof.
  apply (import_appends_settled (orders_parser := ordersHost) "2 orders"
           (GenResponse (Some "o")) firstRejected stateABC sampleOrders).
  reflexivity.
Defined.

(** The model call rejects: the import is abandoned. *)
Lemma import_abandoned_run :
  handleImportOrders (orders_parser := ordersHost) "2 orders"
    (GenRejected (Error "offline")) allMatched stateABC
  = mkState (locations stateABC) None PICKUP_CLOSED false None (Some "c")
            (Some (IMPORT_FAILED +:+ "offline")).
Proof.
  apply (import_abandoned (orders_parser := ordersHost) "2 orders"
           (GenRejected (Error "offline")) allMatched stateABC (Error "offline")).
  left. reflexivity.
Defined.

(** Two orders, both matched, into A, B, C. *)
Lemma import_all_matched_run :
  locations
    (handleImportOrders (orders_parser := ordersHost) "2 orders"
       (GenResponse (Some "o")) allMatched stateABC)
  = locations stateABC
    ++ [ mkLocation "imported-0" "Dao" (mkCoordinates 13.8 100.6)
           (Some "1 Main Rd") (Some false) (Some "Dao") None (Some "Siam") None;
         mkLocation "imported-1" "Ek" (mkCoordinates 13.8 100.6)
           (Some "1 Main Rd") (Some false) (Some "Ek") None (Some "Bang Na") None ].
Proof.
  apply (import_all_matched (orders_parser := ordersHost) "2 orders"
           (GenResponse (Some "o")) allMatched stateABC sampleOrders
           (λ _, (13.8%Q, 100.6%Q))).
  - reflexivity.
  - intros i _. by exists [].
Defined.

(** Two orders into the empty registry, the first request rejected: no
    depot. *)
Lemma import_without_depot_run :
  ¬ Exists (λ l, truthy (isDepot l) = true)
      (locations
         (handleImportOrders (orders_parser := ordersHost) "2 orders"
            (GenResponse (Some "o")) firstRejected emptyState)).
Proof.
  intros H.
  apply (import_depot_iff_first_settled (orders_parser := ordersHost)
           "2 orders" (GenResponse (Some "o")) firstRejected emptyState
           sampleOrders) in H.
  - discriminate H.
  - reflexivity.
  - reflexivity.
  - discriminate.
Defined.

(** Three legs: no steps array, one step, no step: one arrival step. *)
Lemma arrival_markers_run :
  let legs := [mkOsrmLeg None; mkOsrmLeg (Some [sampleTurn]); mkOsrmLeg (Some [])] in
  length (filter (λ s, isArrivalMarker s = true)
                 (routeSteps (mkOsrmRoute [] (Some legs))))
  = length (filter (λ leg, hasSteps leg = true) (removelast legs)).
Proof.
  intros legs. apply (arrival_markers_counted (mkOsrmRoute [] (Some legs)) legs).
  reflexivity.
Defined.

(** The first mirror answers with an error status, the second with a route. *)
Lemma first_usable_mirror_run :
  let route := mkOsrmRoute [(100.5%Q, 13.7%Q)] (Some [mkOsrmLeg (Some [sampleTurn])]) in
  let fetch : string → list Coordinates → OsrmReply :=
    λ u _, if String.eqb u "https://router.project-osrm.org/route/v1/driving"
           then HttpResponse false None
           else HttpResponse true (Some (mkOsrmData "Ok" [route])) in
  fetchRouteData fetch (locations stateABC)
  = {| geometry := [mkCoordinates 13.7 100.5]; steps := legSteps [sampleTurn] |}.
Proof.
  intros route fetch.
  apply (first_usable_mirror_wins fetch (locations stateABC)
           ["https://router.project-osrm.org/route/v1/driving"]
           "https://routing.openstreetmap.de/routed-car/route/v1/driving" []
           route).
  - reflexivity.
  - by repeat constructor.
  - reflexivity.
Defined.

(** Depot A and Alice. *)
Lemma optimizer_depot_run :
  ∃ first rest, depotAndAlice = first :: rest ∧
                depotOf first depotAndAlice = first ∧ id first = "a".
Proof.
  eexists _, _. split; [reflexivity|]. split; [|reflexivity].
  apply optimizer_depot_is_first. by repeat constructor.
Defined.

(** A good answer for A, B, C while every mirror is down. *)
Lemma optimize_result_run :
  let r := mkRoute (Some ["a"; "c"; "b"]) [] (stamped TRUCK_6W sampleStats)
                   (Some []) (Some []) in
  stats_vehicleType (stats r) = Some (VehicleType_value TRUCK_6W) ∧
  (is_Some (pathPolyline r) ↔ is_Some (navigationInstructions r)) ∧
  (is_Some (pathPolyline r) ↔
   (1 < length (omap (findById (locations stateABC))
                     (default [] (optimizedOrder r))))%nat).
Proof.
  intros r.
  apply (optimize_result_shape (route_parser := routeHost) (locations stateABC)
           TRUCK_6W (GenResponse (Some "r")) noRoads r).
  reflexivity.
Defined.

(** One stop only. *)
Lemma too_few_stops_run :
  let st := handleMapClick origin "a" emptyState in
  optimizeRouteWithGemini (route_parser := routeHost) (locations st)
    PICKUP_OPEN (GenResponse (Some "r")) noRoads = Throw TOO_FEW_STOPS ∧
  handleCalculateRoute (route_parser := routeHost) (GenResponse (Some "r"))
    noRoads st = st.
Proof.
  intros st.
  apply (too_few_stops (route_parser := routeHost) st PICKUP_OPEN
           (GenResponse (Some "r")) noRoads).
  vm_compute. lia.
Defined.

(** A saved record with two stops and no route. *)
Lemma saved_data_run :
  initialState (saved_parser := savedHost) (Ok (Some "{saved}"))
  = mkState depotAndAlice None PICKUP_CLOSED false None None None.
Proof.
  apply (saved_data_restored (saved_parser := savedHost) "{saved}"
           (Some depotAndAlice) None); [discriminate|reflexivity].
Defined.

(** An order that names Alice, an unknown id and the depot. *)
Lemma views_follow_order_run :
  id <$> displayedLocations depotAndAlice ["x"; "ghost"; "a"]
  = filter (λ i, i ∈ id <$> depotAndAlice) ["x"; "ghost"; "a"] ∧
  Forall (λ l, l ∈ depotAndAlice)
         (displayedLocations depotAndAlice ["x"; "ghost"; "a"]) ∧
  straightLinePositions depotAndAlice ["x"; "ghost"; "a"]
  = (λ l, (lat (coordinates l), lng (coordinates l)))
      <$> displayedLocations depotAndAlice ["x"; "ghost"; "a"].
Proof.
  apply (views_follow_order depotAndAlice ["x"; "ghost"; "a"]). discriminate.
Defined.

(** Stop C, third of A, B, C. *)
Lemma labels_run :
  markerLabelIndex (locations stateABC) [] stopC = 2%Z ∧
  listLabelIndex (locations stateABC) [] stopC = 2%Z.
Proof.
  apply (labels_are_positions (locations stateABC) 2 stopC).
  - apply (bool_decide_unpack _). by vm_compute.
  - reflexivity.
Defined.

(** A good answer for A, B, C while every mirror is down: the map draws
    A, C, B with straight lines. *)
Lemma straight_path_run :
  let st' :=
    handleCalculateRoute (route_parser := routeHost) (GenResponse (Some "r"))
      noRoads stateABC in
  props_optimizedOrder st' = ["a"; "c"; "b"] ∧
  displayPositions (locations st') (props_optimizedOrder st')
                   (props_routePolyline st')
  = straightLinePositions (locations stateABC) ["a"; "c"; "b"].
Proof.
  apply (road_failure_draws_straight_path (route_parser := routeHost) stateABC
           (Some "r") sampleRouteJson sampleStats noRoads
           (clickedStop 0 (origin, "a"))).
  - vm_compute. lia.
  - reflexivity.
  - reflexivity.
  - reflexivity.
  - reflexivity.
Defined.

(** Three spaces in the dialog. *)
Lemma blank_text_run :
  handleImportSubmit (mkImportDialog "   " true)
  = (mkImportDialog "   " true, None).
Proof.
  apply (blank_text_not_submitted (mkImportDialog "   " true)).
  repeat constructor; unfold asciiBlank; vm_compute; by repeat constructor.
Defined.

(** Depot A in zone HQ and Alice in zone Siam. *)
Lemma groups_run :
  ∃ groups,
    shownGroups depotAndAlice [] = Ok groups ∧
    NoDup groups.*1 ∧
    Forall (λ kv, kv.2 ≠ [] ∧ Forall (λ l, zoneOf l = kv.1) kv.2 ∧
                  kv.2 `sublist_of` depotAndAlice) groups ∧
    concat groups.*2 ≡ₚ depotAndAlice.
Proof.
  apply (groups_partition_the_stops depotAndAlice). by repeat constructor.
Defined.

(** A stop whose zone is "constructor". *)
Lemma inherited_zone_run :
  shownGroups
    [mkLocation "x" "Alice" origin None (Some false) None None
                (Some "constructor") None] []
  = Throw TYPE_ERROR_PUSH.
Proof.
  apply (proj2 (inherited_zone_breaks_the_list _)). by repeat constructor.
Defined.

(** A depot without a zone and Alice in zone Siam. *)
Lemma depot_group_run :
  ∃ groups depotGroup,
    forEachGroup bareDepotAndAlice [] = Ok groups ∧
    getOwn DEPOT_ZONE groups = Some depotGroup ∧
    shownGroups bareDepotAndAlice []
    = Ok ((DEPOT_ZONE, depotGroup) :: deleteOwn DEPOT_ZONE groups).
Proof.
  apply (depot_group_first bareDepotAndAlice).
  - by repeat constructor.
  - by repeat constructor.
  - by repeat constructor.
Defined.

(** The leg under A in the order A, C, B. *)
Lemma segment_run :
  let segs := [mkSegment "c" "b" 4 9; mkSegment "a" "c" 7 12] in
  let s := mkSegment "a" "c" 7 12 in
  s ∈ segs ∧ fromId s = "a" ∧
  ∃ k, ["a"; "c"; "b"] !! k = Some "a" ∧
       (∀ j, (j < k)%nat → ["a"; "c"; "b"] !! j ≠ Some "a") ∧
       ["a"; "c"; "b"] !! S k = Some (toId s).
Proof.
  intros segs s.
  apply (segment_shown_is_next_leg ["a"; "c"; "b"] segs
           (clickedStop 0 (origin, "a")) s).
  - apply elem_of_cons. by left.
  - reflexivity.
Defined.
